(** * A shallow embedding of the chat server (server.py)

    The server keeps a registry [clients] (socket -> username) guarded by one
    non-reentrant [threading.Lock], greets every accepted connection, reads a
    username, and then relays every chunk returned by [recv] to the other
    registered sockets through [broadcast].

    Strings are modelled as Python has them: a [str] is a sequence of code
    points, a [bytes] a sequence of octets, and [str.encode('utf-8')] /
    [bytes.decode('utf-8')] are the strict UTF-8 codec.

    Handler code is written in a small monad over the state shared by the
    threads.  A run of one thread either returns, raises, or is suspended:
    on the lock, when it finds it taken, or in [recv], when its input is
    used up; a run suspended in [recv] is resumed with more input, in the
    state the other threads have left.  The peer of a connection is given
    by the results of the successive [recv] calls of its handler, and by
    whether [send] on the socket raises.  A [send] that does not raise hands
    over all its bytes.  The state records every send, every entry into
    [broadcast] and every [close], in order.  The [print] calls of the source
    touch neither the state nor the wire and are left out. *)

From Stdlib Require Import ZArith List Bool Lia String Ascii.
Import ListNotations.
Open Scope Z_scope.

(** ** Python strings and the UTF-8 codec *)

Module PyStr.

(** A Python [str]: the sequence of its code points. *)
Definition str := list Z.
(** A Python [bytes] object: octets in [0, 255]. *)
Definition bytes := list Z.

(** A string literal of the source (all of them are ASCII). *)
Definition lit (s : string) : str :=
  map (fun a => Z.of_N (N_of_ascii a)) (list_ascii_of_string s).

Definition between (lo x hi : Z) : bool := (lo <=? x) && (x <=? hi).

(** Code points that a [str] built by [decode] can hold: Unicode scalar
    values (no surrogates). *)
Definition scalar (c : Z) : bool :=
  between 0 c 0xD7FF || between 0xE000 c 0x10FFFF.

Definition well_formed (s : str) : bool := forallb scalar s.

(** [str.encode('utf-8')] on one code point; [None] is UnicodeEncodeError
    (a lone surrogate). *)
Definition encode_cp (c : Z) : option bytes :=
  if negb (scalar c) then None
  else if c <? 0x80 then Some [c]
  else if c <? 0x800 then Some [0xC0 + c / 64; 0x80 + c mod 64]
  else if c <? 0x10000 then
    Some [0xE0 + c / 4096; 0x80 + (c / 64) mod 64; 0x80 + c mod 64]
  else
    Some [0xF0 + c / 262144; 0x80 + (c / 4096) mod 64;
          0x80 + (c / 64) mod 64; 0x80 + c mod 64].

Fixpoint encode (s : str) : option bytes :=
  match s with
  | [] => Some []
  | c :: rest =>
      match encode_cp c, encode rest with
      | Some b, Some bs => Some (b ++ bs)
      | _, _ => None
      end
  end.

Definition cont (b : Z) : bool := between 0x80 b 0xBF.

Definition push (c : Z) (r : option str) : option str :=
  match r with Some s => Some (c :: s) | None => None end.

(** [bytes.decode('utf-8')] with the default strict error handler; [None] is
    UnicodeDecodeError.  Overlong forms, surrogates, values above U+10FFFF,
    stray continuation bytes and truncated sequences are all rejected. *)
Fixpoint decode (bs : bytes) : option str :=
  match bs with
  | [] => Some []
  | b0 :: t0 =>
      if between 0 b0 0x7F then push b0 (decode t0)
      else if between 0xC2 b0 0xDF then
        match t0 with
        | b1 :: t1 =>
            if cont b1
            then push ((b0 - 0xC0) * 64 + (b1 - 0x80)) (decode t1)
            else None
        | _ => None
        end
      else if between 0xE0 b0 0xEF then
        match t0 with
        | b1 :: b2 :: t2 =>
            if between (if b0 =? 0xE0 then 0xA0 else 0x80) b1
                       (if b0 =? 0xED then 0x9F else 0xBF) && cont b2
            then push ((b0 - 0xE0) * 4096 + (b1 - 0x80) * 64 + (b2 - 0x80))
                      (decode t2)
            else None
        | _ => None
        end
      else if between 0xF0 b0 0xF4 then
        match t0 with
        | b1 :: b2 :: b3 :: t3 =>
            if between (if b0 =? 0xF0 then 0x90 else 0x80) b1
                       (if b0 =? 0xF4 then 0x8F else 0xBF)
               && cont b2 && cont b3
            then push ((b0 - 0xF0) * 262144 + (b1 - 0x80) * 4096
                       + (b2 - 0x80) * 64 + (b3 - 0x80))
                      (decode t3)
            else None
        | _ => None
        end
      else None
  end.

(** [str.isspace] on one code point (the characters [str.strip] removes). *)
Definition isspace (c : Z) : bool :=
  between 0x09 c 0x0D || between 0x1C c 0x20 || (c =? 0x85) || (c =? 0xA0)
  || (c =? 0x1680) || between 0x2000 c 0x200A || (c =? 0x2028)
  || (c =? 0x2029) || (c =? 0x202F) || (c =? 0x205F) || (c =? 0x3000).

Fixpoint lstrip (s : str) : str :=
  match s with
  | c :: rest => if isspace c then lstrip rest else s
  | [] => []
  end.

Definition rstrip (s : str) : str := rev (lstrip (rev s)).

(** [s.strip()] *)
Definition strip (s : str) : str := rstrip (lstrip s).

(** Python truthiness of a string: [not data] holds for the empty one. *)
Definition is_empty (s : str) : bool :=
  match s with [] => true | _ => false end.

End PyStr.

(** ** Insertion-ordered dictionaries

    [self.clients] is a Python [dict]: iteration follows insertion order, which
    fixes the order in which [broadcast] writes to the sockets.  It is kept as
    an association list; [set] keeps the position of an existing key. *)

Module Dict.
Section Dict.
Context {V : Type}.

Definition dict := list (nat * V).

(** [d.get(k)] *)
Fixpoint get (k : nat) (d : dict) : option V :=
  match d with
  | [] => None
  | (k', v) :: rest => if Nat.eqb k k' then Some v else get k rest
  end.

(** [k in d] *)
Definition mem (k : nat) (d : dict) : bool :=
  match get k d with Some _ => true | None => false end.

(** [d[k] = v] *)
Fixpoint set (k : nat) (v : V) (d : dict) : dict :=
  match d with
  | [] => [(k, v)]
  | (k', v') :: rest =>
      if Nat.eqb k k' then (k, v) :: rest else (k', v') :: set k v rest
  end.

(** the dictionary left by [d.pop(k)] *)
Definition remove (k : nat) (d : dict) : dict :=
  filter (fun kv => negb (Nat.eqb k (fst kv))) d.

(** the keys, in iteration order *)
Definition keys (d : dict) : list nat := map fst d.
End Dict.
Arguments dict : clear implicits.
End Dict.

(** ** The server *)

Module Server.
Import PyStr.

(** A socket object, identified by a number. *)
Definition sock := nat.

Definition BUFFER_SIZE : nat := 1024.

Definition sock_eqb (a b : sock) : bool := Nat.eqb a b.

(** Exceptions the handler can meet. *)
Inductive Exn := OSError | UnicodeError | KeyError.

(** What a run leaves behind: every [send] with the state of the lock at
    that moment, every entry into [broadcast], every [close]. *)
Inductive Event :=
| Sent (c : sock) (data : bytes) (locked : bool)
| SendFailed (c : sock) (locked : bool)
| Called (message : str) (exclude : option sock)
| Closed (c : sock).

(** The state shared by the handler threads: the registry, the lock, the
    sockets on which [send] raises, and the events so far (oldest first). *)
Record World := mkWorld {
  clients : Dict.dict str;
  lock : bool;
  broken : list sock;
  trace : list Event
}.

(** Where a handler thread starts or is resumed: at the accepted
    connection, at the [recv] of the username, or at the [recv] of the
    receive loop (with the username it has read). *)
Inductive Point :=
| Accepted
| AwaitName
| AwaitData (username : str).

Inductive Wait :=
| OnLock
| OnRecv (p : Point).

Inductive Outcome (A : Type) :=
| Returned (a : A) (w : World)
| Raised (e : Exn) (w : World)
| Suspended (at_ : Wait) (w : World).
Arguments Returned {A} a w.
Arguments Raised {A} e w.
Arguments Suspended {A} at_ w.

Definition world_of {A} (o : Outcome A) : World :=
  match o with
  | Returned _ w | Raised _ w | Suspended _ w => w
  end.

(** *** The monad of handler code *)

Definition M (A : Type) := World -> Outcome A.

Definition ret {A} (a : A) : M A := fun w => Returned a w.

Definition bind {A B} (m : M A) (k : A -> M B) : M B :=
  fun w =>
    match m w with
    | Returned a w' => k a w'
    | Raised e w' => Raised e w'
    | Suspended p w' => Suspended p w'
    end.

Definition raise {A} (e : Exn) : M A := fun w => Raised e w.

Definition suspend {A} (p : Wait) : M A := fun w => Suspended p w.

Declare Scope server_scope.
Delimit Scope server_scope with server.
Notation "x <- m ;; k" := (bind m (fun x => k))
  (at level 61, m at next level, right associativity) : server_scope.
Notation "m ;; k" := (bind m (fun _ => k))
  (at level 61, right associativity) : server_scope.
Open Scope server_scope.

(** [try: body except: handler] (a suspended thread has not left [body]) *)
Definition try_except {A} (body : M A) (handler : Exn -> M A) : M A :=
  fun w =>
    match body w with
    | Raised e w' => handler e w'
    | o => o
    end.

(** [try: body finally: fin] *)
Definition try_finally {A} (body : M A) (fin : M unit) : M A :=
  fun w =>
    match body w with
    | Returned a w1 =>
        match fin w1 with
        | Returned _ w2 => Returned a w2
        | Raised e w2 => Raised e w2
        | Suspended p w2 => Suspended p w2
        end
    | Raised e w1 =>
        match fin w1 with
        | Returned _ w2 => Raised e w2
        | Raised e' w2 => Raised e' w2
        | Suspended p w2 => Suspended p w2
        end
    | Suspended p w1 => Suspended p w1
    end.

Definition set_lock (b : bool) (w : World) : World :=
  mkWorld (clients w) b (broken w) (trace w).

Definition set_clients (d : Dict.dict str) (w : World) : World :=
  mkWorld d (lock w) (broken w) (trace w).

Definition add_events (evs : list Event) (w : World) : World :=
  mkWorld (clients w) (lock w) (broken w) (trace w ++ evs).

Definition set_broken (c : sock) (w : World) : World :=
  mkWorld (clients w) (lock w) (c :: broken w) (trace w).

(** [threading.Lock.acquire]: the lock has no owner and is not reentrant;
    whoever finds it taken waits. *)
Definition acquire : M unit :=
  fun w => if lock w then Suspended OnLock w else Returned tt (set_lock true w).

Definition release : M unit :=
  fun w => Returned tt (set_lock false w).

(** [with self.lock: body] *)
Definition with_lock {A} (body : M A) : M A :=
  acquire ;; try_finally body release.

Definition is_broken (c : sock) (w : World) : bool :=
  existsb (sock_eqb c) (broken w).

(** [c.send(data)]: either all of [data] is handed to the transport or the
    call raises. *)
Definition send (c : sock) (data : bytes) : M unit :=
  fun w =>
    if is_broken c w
    then Raised OSError (add_events [SendFailed c (lock w)] w)
    else Returned tt (add_events [Sent c data (lock w)] w).

(** [c.close()]: later sends on [c] raise. *)
Definition close (c : sock) : M unit :=
  fun w => Returned tt (add_events [Closed c] (set_broken c w)).

(** [message.encode('utf-8')] *)
Definition encode_utf8 (message : str) : M bytes :=
  match encode message with
  | Some data => ret data
  | None => raise UnicodeError
  end.

(** [data.decode('utf-8')] *)
Definition decode_utf8 (data : bytes) : M str :=
  match decode data with
  | Some s => ret s
  | None => raise UnicodeError
  end.

(** What one call [client_socket.recv(BUFFER_SIZE)] gives: a chunk of the
    stream (empty at end of stream) or an error. *)
Inductive Recv :=
| Chunk (data : bytes)
| ConnError.

Definition recv (r : Recv) : M bytes :=
  match r with
  | Chunk data => ret data
  | ConnError => raise OSError
  end.

(** The results of successive [recv(BUFFER_SIZE)] calls on bytes that are
    all pending in the socket: at most [BUFFER_SIZE] each. *)
Fixpoint recv_split (fuel : nat) (pending : bytes) : list bytes :=
  match fuel, pending with
  | S fuel', _ :: _ =>
      firstn BUFFER_SIZE pending
        :: recv_split fuel' (skipn BUFFER_SIZE pending)
  | _, _ => []
  end.

Definition recv_calls (pending : bytes) : list bytes :=
  recv_split (List.length pending) pending.

(** *** [ChatServer.broadcast] *)

Definition is_excluded (c : sock) (exclude : option sock) : bool :=
  match exclude with
  | Some x => sock_eqb c x
  | None => false
  end.

(** The body of [for client_socket in self.clients]. *)
Fixpoint fan_out (message : str) (exclude : option sock)
    (targets : list sock) : M unit :=
  match targets with
  | [] => ret tt
  | c :: rest =>
      (if is_excluded c exclude then ret tt
       else try_except (data <- encode_utf8 message ;; send c data)
                       (fun _ => ret tt)) ;;
      fan_out message exclude rest
  end.

(** Lines 87-95.  The entry into the call is recorded first; the loop runs
    over the keys of the registry, which it does not change. *)
Definition broadcast (message : str) (exclude : option sock) : M unit :=
  (fun w => Returned tt (add_events [Called message exclude] w)) ;;
  with_lock (fun w => fan_out message exclude (Dict.keys (clients w)) w).

(** *** [ChatServer._handle_client] *)

Definition welcome_msg : str := lit "Welcome! Enter your username".

Definition join_msg (username : str) : str :=
  username ++ lit " joined the chat".

Definition data_msg (username data : str) : str :=
  username ++ lit ": " ++ data.

Definition leave_msg (username : str) : str :=
  username ++ lit " left the chat".

(** [with self.lock: self.clients[client_socket] = username] *)
Definition register (c : sock) (username : str) : M unit :=
  with_lock (fun w => Returned tt (set_clients (Dict.set c username (clients w)) w)).

(** Lines 53-54. *)
Definition greet (c : sock) : M unit :=
  data <- encode_utf8 welcome_msg ;; send c data.

(** Lines 56-62, on the result of the first [recv]. *)
Definition handshake (c : sock) (r : Recv) : M str :=
  raw <- recv r ;;
  s <- decode_utf8 raw ;;
  let username := strip s in
  register c username ;;
  broadcast (join_msg username) (Some c) ;;
  ret username.

(** Lines 65-71, on the results of the following [recv] calls. *)
Fixpoint listen (c : sock) (username : str) (input : list Recv) : M unit :=
  match input with
  | [] => suspend (OnRecv (AwaitData username))
  | r :: rest =>
      raw <- recv r ;;
      data <- decode_utf8 raw ;;
      if is_empty data then ret tt
      else broadcast (data_msg username data) (Some c) ;;
           listen c username rest
  end.

Definition enter (c : sock) (input : list Recv) : M unit :=
  match input with
  | [] => suspend (OnRecv AwaitName)
  | r :: rest => username <- handshake c r ;; listen c username rest
  end.

(** The [try] block, entered at the start or resumed at a [recv]. *)
Definition body (p : Point) (c : sock) (input : list Recv) : M unit :=
  match p with
  | Accepted => greet c ;; enter c input
  | AwaitName => enter c input
  | AwaitData username => listen c username input
  end.

(** [self.clients.pop(client_socket)] *)
Definition pop (c : sock) : M str :=
  fun w =>
    match Dict.get c (clients w) with
    | Some username =>
        Returned username (set_clients (Dict.remove c (clients w)) w)
    | None => Raised KeyError w
    end.

(** The [finally] block, lines 76-85. *)
Definition cleanup (c : sock) : M unit :=
  with_lock (fun w =>
    if Dict.mem c (clients w)
    then (username <- pop c ;; broadcast (leave_msg username) None) w
    else Returned tt w) ;;
  try_except (close c) (fun _ => ret tt).

Definition run_from (p : Point) (c : sock) (input : list Recv) : M unit :=
  try_finally (try_except (body p c input) (fun _ => ret tt)) (cleanup c).

Definition _handle_client (c : sock) (input : list Recv) : M unit :=
  run_from Accepted c input.

(** *** Reading a trace *)

(** The payloads written to [c], oldest first. *)
Fixpoint sent_to (c : sock) (t : list Event) : list bytes :=
  match t with
  | [] => []
  | Sent c' data _ :: rest =>
      if sock_eqb c c' then data :: sent_to c rest else sent_to c rest
  | _ :: rest => sent_to c rest
  end.

(** The messages handed to [broadcast], oldest first. *)
Fixpoint calls (t : list Event) : list (str * option sock) :=
  match t with
  | [] => []
  | Called m x :: rest => (m, x) :: calls rest
  | _ :: rest => calls rest
  end.

(** A [send] attempt made while the lock is taken. *)
Definition io_under_lock (e : Event) : bool :=
  match e with
  | Sent _ _ lk | SendFailed _ lk => lk
  | _ => false
  end.

Definition is_io (e : Event) : bool :=
  match e with
  | Sent _ _ _ | SendFailed _ _ => true
  | _ => false
  end.

(** What one iteration of the fan-out loop leaves in the trace (the loop
    runs with the lock taken). *)
Definition attempt (message : str) (exclude : option sock) (brk : list sock)
    (c : sock) : list Event :=
  if is_excluded c exclude then []
  else match encode message with
       | None => []
       | Some data =>
           if existsb (sock_eqb c) brk then [SendFailed c true]
           else [Sent c data true]
       end.

(** What the whole fan-out loop of one [broadcast] leaves in the trace. *)
Definition fan_events (message : str) (exclude : option sock) (w : World)
    : list Event :=
  flat_map (attempt message exclude (broken w)) (Dict.keys (clients w)).

(** What one [broadcast] leaves in the trace when the lock is free. *)
Definition broadcast_events (message : str) (exclude : option sock)
    (w : World) : list Event :=
  Called message exclude :: fan_events message exclude w.

(** The events of [w'] that are not yet in [w]. *)
Definition new_events (w w' : World) : list Event :=
  skipn (List.length (trace w)) (trace w').

(** The trace of [w'] extends the trace of [w] by events that satisfy [Q]. *)
Definition grows (Q : Event -> Prop) (w w' : World) : Prop :=
  exists new, trace w' = trace w ++ new /\ Forall Q new.

(** Whatever the state, [m] adds only events that satisfy [Q]. *)
Definition emits {A} (Q : Event -> Prop) (m : M A) : Prop :=
  forall w, grows Q w (world_of (m w)).

(** *** The receive loop, read off its input *)

(** The strings the loop relays: the decoded chunks that come before the
    first empty chunk, error, or the end of the input. *)
Fixpoint relayed (input : list Recv) : list str :=
  match input with
  | Chunk d :: rest =>
      match decode d with
      | Some (a :: s) => (a :: s) :: relayed rest
      | _ => []
      end
  | _ => []
  end.

(** How the loop stops. *)
Inductive Stop :=
| Eof
| Failed (e : Exn)
| Starved.

Fixpoint stop (input : list Recv) : Stop :=
  match input with
  | [] => Starved
  | ConnError :: _ => Failed OSError
  | Chunk d :: rest =>
      match decode d with
      | None => Failed UnicodeError
      | Some [] => Eof
      | Some (_ :: _) => stop rest
      end
  end.

Definition finish (s : Stop) (username : str) (w : World) : Outcome unit :=
  match s with
  | Eof => Returned tt w
  | Failed e => Raised e w
  | Starved => Suspended (OnRecv (AwaitData username)) w
  end.

Definition relay_events (c : sock) (username : str) (bodies : list str)
    (w : World) : list Event :=
  flat_map (fun s => broadcast_events (data_msg username s) (Some c) w) bodies.

(** The wire format of the specification, for comparison: a four-byte
    big-endian length before the payload. *)
Definition length_prefixed (payload : bytes) : bytes :=
  let n := Z.of_nat (List.length payload) in
  [(n / 16777216) mod 256; (n / 65536) mod 256; (n / 256) mod 256; n mod 256]
    ++ payload.

(** *** Worlds used in examples *)

Definition idle : World := mkWorld [] false [] [].

Definition two_clients : World :=
  mkWorld [(1%nat, lit "alice"); (2%nat, lit "bob")] false [] [].

Definition bob_is_broken : World :=
  mkWorld [(1%nat, lit "alice"); (2%nat, lit "bob"); (3%nat, lit "carol")]
          false [2%nat] [].

(** alice (socket 1) has joined and waits for data *)
Definition after_alice : World :=
  world_of (_handle_client 1%nat [Chunk (lit "alice")] idle).

(** then bob (socket 2) has joined *)
Definition after_bob : World :=
  world_of (_handle_client 2%nat [Chunk (lit "bob")] after_alice).

(** then alice's connection has reached end of stream *)
Definition alice_gone : World :=
  world_of (run_from (AwaitData (lit "alice")) 1%nat [Chunk []] after_bob).

End Server.

(** ** The rest of the server: [ChatServer.shutdown] *)

Module Lifecycle.
Import PyStr Server.

(** The loop of lines 100-104: every registered socket is closed, errors
    ignored. *)
Fixpoint close_all (targets : list sock) : M unit :=
  match targets with
  | [] => ret tt
  | c :: rest =>
      try_except (close c) (fun _ => ret tt) ;; close_all rest
  end.

(** [self.clients.clear()] *)
Definition clear : M unit :=
  fun w => Returned tt (set_clients [] w).

(** Lines 97-112; [server_socket] is [self.server_socket], [None] until
    [start] has created the listening socket. *)
Definition shutdown (server_socket : option sock) : M unit :=
  with_lock (fun w => (close_all (Dict.keys (clients w)) ;; clear) w) ;;
  match server_socket with
  | Some s => try_except (close s) (fun _ => ret tt)
  | None => ret tt
  end.

(** The sockets closed in a trace, oldest first. *)
Fixpoint closed (t : list Event) : list sock :=
  match t with
  | [] => []
  | Closed c :: rest => c :: closed rest
  | _ :: rest => closed rest
  end.

Definition option_list {A} (o : option A) : list A :=
  match o with Some a => [a] | None => [] end.

(** A [recv] result on which the receive loop stops: an error, bytes that
    are not valid UTF-8, or the empty chunk. *)
Definition ends_session (r : Recv) : bool :=
  match r with
  | ConnError => true
  | Chunk d =>
      match decode d with
      | Some (_ :: _) => false
      | _ => true
      end
  end.

(** Whatever the state, the state [m] leaves is related to it by [R]. *)
Definition keeps {A} (R : World -> World -> Prop) (m : M A) : Prop :=
  forall w, R w (world_of (m w)).

(** Runs of handler threads, one after the other: each is given by where
    the thread starts or resumes, its socket and the [recv] results it
    gets. *)
Definition run_all (runs : list (Point * sock * list Recv)) (w : World)
    : World :=
  fold_left
    (fun w0 r => world_of (run_from (fst (fst r)) (snd (fst r)) (snd r) w0))
    runs w.

(** An event that is neither a relayed message nor a [close]: a greeting,
    a failed send, or an entry into [broadcast]. *)
Definition idle_event (e : Event) : Prop :=
  match e with
  | Sent _ data _ => encode welcome_msg = Some data
  | Closed _ => False
  | _ => True
  end.

(** Started with the lock free, [m] leaves it free and never waits for
    it. *)
Definition calm {A} (m : M A) : Prop :=
  forall w, lock w = false ->
    lock (world_of (m w)) = false /\ forall w', m w <> Suspended OnLock w'.

End Lifecycle.

(** ** Substring tests and splitting, as the clients use them *)

Module Text.
Import PyStr.

(** [s.startswith(prefix)] *)
Fixpoint startswith (prefix s : str) : bool :=
  match prefix, s with
  | [], _ => true
  | p :: ps, a :: t => (p =? a) && startswith ps t
  | _ :: _, [] => false
  end.

(** [sep in s] *)
Fixpoint contains (sep s : str) : bool :=
  startswith sep s
  || match s with
     | [] => false
     | _ :: t => contains sep t
     end.

(** [s.split(sep, 1)] for a non-empty [sep]: one part when [sep] does not
    occur, else what is before and what is after its first occurrence. *)
Fixpoint split1 (sep s : str) : list str :=
  if startswith sep s then [[]; skipn (List.length sep) s]
  else match s with
       | [] => [[]]
       | a :: t =>
           match split1 sep t with
           | before :: parts => (a :: before) :: parts
           | [] => [[a]]
           end
       end.

Fixpoint str_eqb (a b : str) : bool :=
  match a, b with
  | [], [] => true
  | x :: a', y :: b' => (x =? y) && str_eqb a' b'
  | _, _ => false
  end.

End Text.

(** ** The graphical client: [ChatGUI._on_message] (gui.py) *)

Module Gui.
Import PyStr Text.

(** Lines 161-165: the sender and the body handed to [_append_message];
    [None] stands for the IndexError of [parts[1]]. *)
Definition on_message (message : str) : option (str * str) :=
  if contains (lit ": ") message then
    match split1 (lit ": ") message with
    | sender :: body :: _ => Some (sender, body)
    | _ => None
    end
  else Some ([], message).

End Gui.

(** ** The line-mode client: [ChatClient] (client.py) *)

Module Client.
Import PyStr Text.

Record State := mkState {
  username : str;
  is_connected : bool;
  has_socket : bool;
  (** the payloads handed to the socket so far, oldest first *)
  wire : list bytes
}.

Definition set_connected (b : bool) (st : State) : State :=
  mkState (username st) b (has_socket st) (wire st).

Definition put (data : bytes) (st : State) : State :=
  mkState (username st) (is_connected st) (has_socket st) (wire st ++ [data]).

(** Lines 71-83; [link_up] tells whether [socket.send] goes through.  The
    result is what the method returns and the state it leaves. *)
Definition send_message (message : str) (link_up : bool) (st : State)
    : bool * State :=
  if negb (is_connected st) || negb (has_socket st) then (false, st)
  else match encode message with
       | Some data =>
           if link_up then (true, put data st)
           else (false, set_connected false st)
       | None => (false, set_connected false st)
       end.

(** Lines 85-93. *)
Definition disconnect (st : State) : State :=
  mkState (username st) false (has_socket st) (wire st).

(** What one call of [input] gives: a line, together with the state of the
    link when the line is sent, or an exception (end of input, Ctrl-C). *)
Inductive Typed :=
| Line (text : str) (link_up : bool)
| Aborted.

(** How a run of the loop stands: waiting in [input] for the next line, or
    ended and disconnected. *)
Inductive Result :=
| Waiting (st : State)
| Ended (st : State).

Definition state_of (r : Result) : State :=
  match r with Waiting st | Ended st => st end.

Section Interact.
(** [str.lower], the case mapping of the Unicode tables. *)
Variable lower : str -> str.

(** Lines 114-116: the text a line is sent as. *)
Definition outgoing (name user_input : str) : str :=
  if contains (lit ":") user_input then user_input
  else name ++ lit ":" ++ user_input.

(** Lines 104-125, after a successful [connect]: the loop over the typed
    lines, and the final [disconnect] once the loop has ended. *)
Fixpoint interact (typed : list Typed) (st : State) : Result :=
  if negb (is_connected st) then Ended (disconnect st)
  else
    match typed with
    | [] => Waiting st
    | Aborted :: _ => Ended (disconnect st)
    | Line text link_up :: rest =>
        let user_input := strip text in
        if is_empty user_input then interact rest st
        else if str_eqb (lower user_input) (lit "exit")
             then Ended (disconnect st)
             else interact rest
                    (snd (send_message (outgoing (username st) user_input)
                            link_up st))
    end.
End Interact.

Definition set_socket (st : State) : State :=
  mkState (username st) (is_connected st) true (wire st).

Definition set_username (name : str) (st : State) : State :=
  mkState name (is_connected st) (has_socket st) (wire st).

(** Lines 19-42.  [reachable] tells whether the server accepts the
    connection, [welcome] is what the first [recv] gives, [typed] what
    [input] gives when the user name is asked for ([None]: it raises), and
    [link_up] whether the [send] of the name goes through. *)
Definition connect (reachable : bool) (welcome : Server.Recv)
    (typed : option str) (link_up : bool) (st : State) : bool * State :=
  let st1 := set_socket st in
  if negb reachable then (false, st1)
  else
    match welcome with
    | Server.ConnError => (false, st1)
    | Server.Chunk raw =>
        match decode raw with
        | None => (false, st1)
        | Some _ =>
            let named :=
              if is_empty (username st1)
              then option_map (fun t => set_username (strip t) st1) typed
              else Some st1 in
            match named with
            | None => (false, st1)
            | Some st2 =>
                match encode (username st2) with
                | Some data =>
                    if link_up
                    then (true, set_connected true (put data st2))
                    else (false, st2)
                | None => (false, st2)
                end
            end
        end
    end.

(** Lines 44-63: the listener thread, on the results of its successive
    [recv] calls.  The result is the state it leaves and the messages it
    has printed, oldest first. *)
Fixpoint listener (incoming : list Server.Recv) (st : State)
    : State * list str :=
  if negb (is_connected st) then (st, [])
  else
    match incoming with
    | [] => (st, [])
    | Server.ConnError :: _ => (set_connected false st, [])
    | Server.Chunk raw :: rest =>
        match decode raw with
        | None => (set_connected false st, [])
        | Some [] => (set_connected false st, [])
        | Some (a :: s) =>
            let (st', shown) := listener rest st in
            (st', (a :: s) :: shown)
        end
    end.

(** ASCII lower-casing, an instance of [lower] for examples. *)
Definition ascii_lower (s : str) : str :=
  map (fun c => if between 65 c 90 then c + 32 else c) s.

End Client.

(** * Facts about the codec *)

Import PyStr.

Lemma between_true lo x hi : lo <= x <= hi -> between lo x hi = true.
Proof.
  unfold between; intros; apply andb_true_intro; split; apply Z.leb_le; lia.
Qed.

Lemma between_false lo x hi : x < lo \/ hi < x -> between lo x hi = false.
Proof.
  unfold between; intros [H|H].
  - apply andb_false_intro1, Z.leb_gt; lia.
  - apply andb_false_intro2, Z.leb_gt; lia.
Qed.

(** Splitting a code point into a quotient and a six-bit remainder. *)
Lemma six_bits (c : Z) :
  exists q r, c / 64 = q /\ c mod 64 = r /\ c = 64 * q + r /\ 0 <= r < 64.
Proof.
  exists (c / 64), (c mod 64); repeat split;
    try apply Z.mod_pos_bound; try apply Z.div_mod; lia.
Qed.

Lemma decode_1 c rest :
  0 <= c < 0x80 -> decode (c :: rest) = push c (decode rest).
Proof. intros H; cbn [decode]; rewrite between_true by lia; reflexivity. Qed.

Lemma decode_2 q r rest :
  2 <= q < 32 -> 0 <= r < 64 ->
  decode (0xC0 + q :: 0x80 + r :: rest) = push (64 * q + r) (decode rest).
Proof.
  intros Hq Hr; cbn [decode].
  rewrite (between_false 0) by lia.
  rewrite (between_true 0xC2) by lia.
  unfold cont; rewrite (between_true 0x80) by lia.
  f_equal; lia.
Qed.

Lemma decode_3 q1 r1 r rest :
  0 <= q1 < 16 -> 0 <= r1 < 64 -> 0 <= r < 64 ->
  (q1 = 0 -> 32 <= r1) -> (q1 = 13 -> r1 < 32) ->
  decode (0xE0 + q1 :: 0x80 + r1 :: 0x80 + r :: rest)
  = push (4096 * q1 + 64 * r1 + r) (decode rest).
Proof.
  intros Hq Hr1 Hr Hlo Hhi; cbn [decode].
  rewrite (between_false 0) by lia.
  rewrite (between_false 0xC2) by lia.
  rewrite (between_true 0xE0) by lia.
  unfold cont; rewrite (between_true 0x80 (0x80 + r)) by lia.
  destruct (Z.eqb_spec (0xE0 + q1) 0xE0), (Z.eqb_spec (0xE0 + q1) 0xED);
    rewrite between_true by lia; cbn [andb]; f_equal; lia.
Qed.

Lemma decode_4 q2 r2 r1 r rest :
  0 <= q2 < 5 -> 0 <= r2 < 64 -> 0 <= r1 < 64 -> 0 <= r < 64 ->
  (q2 = 0 -> 16 <= r2) -> (q2 = 4 -> r2 < 16) ->
  decode (0xF0 + q2 :: 0x80 + r2 :: 0x80 + r1 :: 0x80 + r :: rest)
  = push (262144 * q2 + 4096 * r2 + 64 * r1 + r) (decode rest).
Proof.
  intros Hq Hr2 Hr1 Hr Hlo Hhi; cbn [decode].
  rewrite (between_false 0) by lia.
  rewrite (between_false 0xC2) by lia.
  rewrite (between_false 0xE0) by lia.
  rewrite (between_true 0xF0) by lia.
  unfold cont; rewrite (between_true 0x80 (0x80 + r)) by lia.
  rewrite (between_true 0x80 (0x80 + r1)) by lia.
  destruct (Z.eqb_spec (0xF0 + q2) 0xF0), (Z.eqb_spec (0xF0 + q2) 0xF4);
    rewrite between_true by lia; cbn [andb]; f_equal; lia.
Qed.

Lemma scalar_range c :
  scalar c = true -> 0 <= c <= 0xD7FF \/ 0xE000 <= c <= 0x10FFFF.
Proof.
  unfold scalar, between; intros H.
  apply orb_true_iff in H; destruct H as [H|H];
    apply andb_true_iff in H; destruct H as [H1 H2];
    apply Z.leb_le in H1, H2; lia.
Qed.

Lemma some_eq {A} (x y : A) : Some x = Some y -> x = y.
Proof. congruence. Qed.

Lemma decode_encode_cp (c : Z) (b rest : bytes) :
  encode_cp c = Some b -> decode (b ++ rest) = push c (decode rest).
Proof.
  unfold encode_cp.
  destruct (scalar c) eqn:Hs; cbn [negb]; [|discriminate].
  apply scalar_range in Hs.
  replace (c / 4096) with (c / 64 / 64) by (rewrite Z.div_div by lia; reflexivity).
  replace (c / 262144) with (c / 64 / 64 / 64)
    by (rewrite !Z.div_div by lia; reflexivity).
  destruct (six_bits c) as (q & r & -> & -> & Hc & Hr).
  destruct (six_bits q) as (q1 & r1 & -> & -> & Hq & Hr1).
  destruct (six_bits q1) as (q2 & r2 & -> & -> & Hq1 & Hr2).
  destruct (Z.ltb_spec c 0x80) as [H1|H1].
  { intros E; apply some_eq in E; subst b; apply decode_1; lia. }
  destruct (Z.ltb_spec c 0x800) as [H2|H2].
  { intros E; apply some_eq in E; subst b; cbn [app].
    rewrite decode_2 by lia; f_equal; lia. }
  destruct (Z.ltb_spec c 0x10000) as [H3|H3].
  { intros E; apply some_eq in E; subst b; cbn [app].
    rewrite decode_3 by lia; f_equal; lia. }
  intros E; apply some_eq in E; subst b; cbn [app].
  rewrite decode_4 by lia; f_equal; lia.
Qed.

Lemma decode_encode (s : str) (bs : bytes) :
  encode s = Some bs -> decode bs = Some s.
Proof.
  revert bs; induction s as [|c s IH]; cbn [encode]; intros bs.
  - now intros [= <-].
  - destruct (encode_cp c) as [b|] eqn:Hc; [|discriminate].
    destruct (encode s) as [bs'|]; [|discriminate].
    intros [= <-]. rewrite (decode_encode_cp _ _ _ Hc), (IH bs' eq_refl).
    reflexivity.
Qed.

Lemma between_inv lo x hi : between lo x hi = true -> lo <= x <= hi.
Proof.
  unfold between; intros H; apply andb_true_iff in H.
  destruct H as [H1 H2]; apply Z.leb_le in H1, H2; lia.
Qed.

Lemma push_inv c r s : push c r = Some s -> exists s', r = Some s' /\ s = c :: s'.
Proof. destruct r as [s'|]; cbn; [intros [= <-]; eauto|discriminate]. Qed.

Lemma scalar_true c :
  0 <= c <= 0xD7FF \/ 0xE000 <= c <= 0x10FFFF -> scalar c = true.
Proof.
  unfold scalar; intros [H|H].
  - rewrite between_true by lia; reflexivity.
  - rewrite (between_true 0xE000) by lia; apply orb_true_r.
Qed.

Lemma encode_cp_1 b : 0 <= b <= 0x7F -> encode_cp b = Some [b].
Proof.
  intros H; unfold encode_cp. rewrite scalar_true by lia; cbn [negb].
  destruct (Z.ltb_spec b 0x80); [reflexivity|lia].
Qed.

Lemma encode_cp_2 b0 b1 :
  0xC2 <= b0 <= 0xDF -> 0x80 <= b1 <= 0xBF ->
  encode_cp ((b0 - 0xC0) * 64 + (b1 - 0x80)) = Some [b0; b1].
Proof.
  intros H0 H1; unfold encode_cp.
  remember ((b0 - 0xC0) * 64 + (b1 - 0x80)) as c eqn:Ec.
  rewrite scalar_true by lia; cbn [negb].
  destruct (Z.ltb_spec c 0x80); [lia|].
  destruct (Z.ltb_spec c 0x800); [|lia].
  assert (E1 : c / 64 = b0 - 0xC0) by (Z.div_mod_to_equations; lia).
  assert (E2 : c mod 64 = b1 - 0x80) by (Z.div_mod_to_equations; lia).
  rewrite E1, E2; repeat f_equal; lia.
Qed.

Lemma encode_cp_3 b0 b1 b2 :
  0xE0 <= b0 <= 0xEF ->
  (if b0 =? 0xE0 then 0xA0 else 0x80) <= b1
  <= (if b0 =? 0xED then 0x9F else 0xBF) ->
  0x80 <= b2 <= 0xBF ->
  encode_cp ((b0 - 0xE0) * 4096 + (b1 - 0x80) * 64 + (b2 - 0x80))
  = Some [b0; b1; b2].
Proof.
  intros H0 H1 H2; unfold encode_cp.
  remember ((b0 - 0xE0) * 4096 + (b1 - 0x80) * 64 + (b2 - 0x80)) as c eqn:Ec.
  assert (Hc : 0x800 <= c <= 0xD7FF \/ 0xE000 <= c <= 0xFFFF).
  { destruct (Z.eqb_spec b0 0xE0), (Z.eqb_spec b0 0xED); lia. }
  assert (Hb1 : 0x80 <= b1 <= 0xBF).
  { destruct (Z.eqb_spec b0 0xE0), (Z.eqb_spec b0 0xED); lia. }
  rewrite scalar_true by lia; cbn [negb].
  destruct (Z.ltb_spec c 0x80); [lia|].
  destruct (Z.ltb_spec c 0x800); [lia|].
  destruct (Z.ltb_spec c 0x10000); [|lia].
  assert (E0 : c / 64 = (b0 - 0xE0) * 64 + (b1 - 0x80))
    by (Z.div_mod_to_equations; lia).
  assert (E1 : c / 4096 = b0 - 0xE0) by (Z.div_mod_to_equations; lia).
  assert (E2 : c mod 64 = b2 - 0x80) by (Z.div_mod_to_equations; lia).
  rewrite E0, E1, E2.
  assert (E3 : ((b0 - 0xE0) * 64 + (b1 - 0x80)) mod 64 = b1 - 0x80)
    by (Z.div_mod_to_equations; lia).
  rewrite E3; repeat f_equal; lia.
Qed.

Lemma encode_cp_4 b0 b1 b2 b3 :
  0xF0 <= b0 <= 0xF4 ->
  (if b0 =? 0xF0 then 0x90 else 0x80) <= b1
  <= (if b0 =? 0xF4 then 0x8F else 0xBF) ->
  0x80 <= b2 <= 0xBF -> 0x80 <= b3 <= 0xBF ->
  encode_cp ((b0 - 0xF0) * 262144 + (b1 - 0x80) * 4096
             + (b2 - 0x80) * 64 + (b3 - 0x80))
  = Some [b0; b1; b2; b3].
Proof.
  intros H0 H1 H2 H3; unfold encode_cp.
  remember ((b0 - 0xF0) * 262144 + (b1 - 0x80) * 4096
            + (b2 - 0x80) * 64 + (b3 - 0x80)) as c eqn:Ec.
  assert (Hb1 : 0x80 <= b1 <= 0xBF).
  { destruct (Z.eqb_spec b0 0xF0), (Z.eqb_spec b0 0xF4); lia. }
  assert (Hc : 0x10000 <= c <= 0x10FFFF).
  { destruct (Z.eqb_spec b0 0xF0), (Z.eqb_spec b0 0xF4); lia. }
  rewrite scalar_true by lia; cbn [negb].
  destruct (Z.ltb_spec c 0x80); [lia|].
  destruct (Z.ltb_spec c 0x800); [lia|].
  destruct (Z.ltb_spec c 0x10000); [lia|].
  assert (E0 : c / 64 = (b0 - 0xF0) * 4096 + (b1 - 0x80) * 64 + (b2 - 0x80))
    by (Z.div_mod_to_equations; lia).
  assert (E1 : c / 4096 = (b0 - 0xF0) * 64 + (b1 - 0x80))
    by (Z.div_mod_to_equations; lia).
  assert (E2 : c / 262144 = b0 - 0xF0) by (Z.div_mod_to_equations; lia).
  assert (E3 : c mod 64 = b3 - 0x80) by (Z.div_mod_to_equations; lia).
  rewrite E0, E1, E2, E3.
  assert (E4 : ((b0 - 0xF0) * 4096 + (b1 - 0x80) * 64 + (b2 - 0x80)) mod 64
               = b2 - 0x80) by (Z.div_mod_to_equations; lia).
  assert (E5 : ((b0 - 0xF0) * 64 + (b1 - 0x80)) mod 64 = b1 - 0x80)
    by (Z.div_mod_to_equations; lia).
  rewrite E4, E5; repeat f_equal; lia.
Qed.

(** Every byte sequence that [decode] accepts is the encoding of its result:
    together with [decode_encode], the codec is a bijection between strings
    of scalar values and well-formed UTF-8. *)
Lemma encode_decode_bounded (n : nat) (bs : bytes) (s : str) :
  (List.length bs <= n)%nat -> decode bs = Some s -> encode s = Some bs.
Proof.
  revert bs s; induction n as [|n IH]; intros bs s Hn.
  - destruct bs; [|cbn in Hn; lia]. now intros [= <-].
  - destruct bs as [|b0 t0]; [now intros [= <-]|]. cbn [decode].
    assert (Step : forall c enc t s0,
              encode_cp c = Some enc -> (List.length t <= n)%nat ->
              push c (decode t) = Some s0 -> encode s0 = Some (enc ++ t)).
    { intros c enc t s0 Hc Ht Hp. apply push_inv in Hp.
      destruct Hp as (s' & Hd & ->). cbn [encode].
      now rewrite Hc, (IH _ _ Ht Hd). }
    destruct (between 0 b0 0x7F) eqn:R1.
    { apply between_inv in R1. intros Hp.
      apply (Step b0 [b0] t0); auto using encode_cp_1. cbn in Hn; lia. }
    destruct (between 0xC2 b0 0xDF) eqn:R2.
    { apply between_inv in R2. destruct t0 as [|b1 t1]; [discriminate|].
      unfold cont; destruct (between 0x80 b1 0xBF) eqn:C1; [|discriminate].
      apply between_inv in C1. intros Hp.
      apply (Step _ [b0; b1] t1) in Hp; auto using encode_cp_2.
      cbn in Hn; lia. }
    destruct (between 0xE0 b0 0xEF) eqn:R3.
    { apply between_inv in R3.
      destruct t0 as [|b1 [|b2 t2]]; try discriminate.
      destruct (between _ b1 _) eqn:C1; [|discriminate].
      unfold cont; destruct (between 0x80 b2 0xBF) eqn:C2; [|discriminate].
      apply between_inv in C1, C2. cbn [andb]. intros Hp.
      apply (Step _ [b0; b1; b2] t2) in Hp; auto using encode_cp_3.
      cbn in Hn; lia. }
    destruct (between 0xF0 b0 0xF4) eqn:R4; [|discriminate].
    apply between_inv in R4.
    destruct t0 as [|b1 [|b2 [|b3 t3]]]; try discriminate.
    destruct (between _ b1 _) eqn:C1; [|discriminate].
    unfold cont; destruct (between 0x80 b2 0xBF) eqn:C2; [|discriminate].
    destruct (between 0x80 b3 0xBF) eqn:C3; [|discriminate].
    apply between_inv in C1, C2, C3. cbn [andb]. intros Hp.
    apply (Step _ [b0; b1; b2; b3] t3) in Hp; auto using encode_cp_4.
    cbn in Hn; lia.
Qed.

Lemma encode_decode (bs : bytes) (s : str) :
  decode bs = Some s -> encode s = Some bs.
Proof. apply (encode_decode_bounded (List.length bs)); lia. Qed.

(** ** Strings the codec can carry *)

Lemma encode_well_formed s bs : encode s = Some bs -> well_formed s = true.
Proof.
  revert bs; induction s as [|c s IH]; cbn [encode well_formed forallb]; auto.
  intros bs. destruct (encode_cp c) eqn:Hc; [|discriminate].
  destruct (encode s) eqn:Hs; [|discriminate]. intros _.
  unfold well_formed in IH; rewrite (IH _ eq_refl), andb_true_r.
  unfold encode_cp in Hc. now destruct (scalar c).
Qed.

Lemma well_formed_encode s :
  well_formed s = true -> exists bs, encode s = Some bs.
Proof.
  induction s as [|c s IH]; cbn [encode well_formed forallb]; eauto.
  intros H; apply andb_true_iff in H; destruct H as [Hc Hs].
  destruct (IH Hs) as [bs ->].
  unfold encode_cp; rewrite Hc; cbn [negb].
  destruct (c <? 0x80); eauto. destruct (c <? 0x800); eauto.
  destruct (c <? 0x10000); eauto.
Qed.

Lemma decode_well_formed bs s : decode bs = Some s -> well_formed s = true.
Proof. intros H; eapply encode_well_formed, encode_decode, H. Qed.

Lemma well_formed_app a b :
  well_formed (a ++ b) = well_formed a && well_formed b.
Proof. apply forallb_app. Qed.

Lemma well_formed_lstrip s : well_formed s = true -> well_formed (lstrip s) = true.
Proof.
  induction s as [|c s IH]; cbn [lstrip]; auto.
  destruct (isspace c); auto.
  cbn; intros H; apply andb_true_iff in H; now apply IH.
Qed.

Lemma well_formed_rev s : well_formed (rev s) = well_formed s.
Proof.
  induction s as [|c s IH]; cbn [rev]; auto.
  rewrite well_formed_app, IH; cbn. now rewrite andb_true_r, andb_comm.
Qed.

Lemma well_formed_strip s : well_formed s = true -> well_formed (strip s) = true.
Proof.
  intros H; unfold strip, rstrip.
  rewrite well_formed_rev; apply well_formed_lstrip.
  rewrite well_formed_rev; now apply well_formed_lstrip.
Qed.
(** * Facts about [str.strip] *)

Lemma lstrip_head s a t : lstrip s = a :: t -> isspace a = false.
Proof.
  induction s as [|b s IH]; cbn [lstrip]; [discriminate|].
  destruct (isspace b) eqn:Hb; auto. now intros [= <- _].
Qed.

Lemma lstrip_fixed s :
  (forall a t, s = a :: t -> isspace a = false) -> lstrip s = s.
Proof.
  destruct s as [|b s]; cbn [lstrip]; auto.
  intros H; now rewrite (H b s eq_refl).
Qed.

Lemma lstrip_snoc x a :
  isspace a = false -> lstrip (x ++ [a]) = lstrip x ++ [a].
Proof.
  intros Ha; induction x as [|b x IH]; cbn [lstrip app].
  - now rewrite Ha.
  - destruct (isspace b); auto.
Qed.

Lemma strip_leading s a t : strip s = a :: t -> isspace a = false.
Proof.
  unfold strip, rstrip. destruct (lstrip s) as [|b l] eqn:El.
  - discriminate.
  - pose proof (lstrip_head _ _ _ El) as Hb.
    cbn [rev]. rewrite lstrip_snoc, rev_app_distr by assumption.
    cbn. now intros [= <- _].
Qed.

Lemma strip_trailing s a t : strip s = t ++ [a] -> isspace a = false.
Proof.
  unfold strip, rstrip; intros H.
  apply (f_equal (@rev Z)) in H.
  rewrite rev_involutive, rev_app_distr in H; cbn in H.
  now apply lstrip_head in H.
Qed.

Lemma strip_fixed s : strip (strip s) = strip s.
Proof.
  set (n := strip s). unfold strip at 1, rstrip.
  rewrite (lstrip_fixed n) by (intros a t; apply strip_leading).
  rewrite lstrip_fixed; [apply rev_involutive|].
  intros a t H. apply (strip_trailing s a (rev t)).
  fold n. rewrite <- (rev_involutive n), H. reflexivity.
Qed.

(** What [lstrip] removes is a run of white space at the front. *)
Lemma lstrip_split s :
  exists lead, s = lead ++ lstrip s /\ forallb isspace lead = true.
Proof.
  induction s as [|b s (lead & E & H)]; cbn [lstrip].
  - now exists [].
  - destruct (isspace b) eqn:Hb.
    + exists (b :: lead); cbn [app forallb]. rewrite Hb, H. now rewrite <- E.
    + now exists [].
Qed.

Lemma forallb_rev {A} (f : A -> bool) l : forallb f (rev l) = forallb f l.
Proof.
  induction l as [|a l IH]; cbn [rev forallb]; auto.
  rewrite forallb_app, IH; cbn. now rewrite andb_true_r, andb_comm.
Qed.

Lemma rstrip_split s :
  exists trail, s = rstrip s ++ trail /\ forallb isspace trail = true.
Proof.
  unfold rstrip. destruct (lstrip_split (rev s)) as (lead & E & H).
  exists (rev lead); split; [|now rewrite forallb_rev].
  rewrite <- rev_app_distr, <- E. now rewrite rev_involutive.
Qed.

(** [strip] removes a run of white space at each end, and nothing else. *)
Lemma strip_split s :
  exists lead trail,
    s = lead ++ strip s ++ trail
    /\ forallb isspace lead = true /\ forallb isspace trail = true.
Proof.
  destruct (lstrip_split s) as (lead & E1 & H1).
  destruct (rstrip_split (lstrip s)) as (trail & E2 & H2).
  exists lead, trail; repeat split; auto.
  unfold strip. now rewrite <- E2.
Qed.

Lemma lstrip_space_app a x :
  forallb isspace a = true -> lstrip (a ++ x) = lstrip x.
Proof.
  induction a as [|b a IH]; cbn [forallb app lstrip]; auto.
  intros H; apply andb_true_iff in H; destruct H as [-> H]. auto.
Qed.

Lemma lstrip_space a : forallb isspace a = true -> lstrip a = [].
Proof.
  intros H. rewrite <- (app_nil_r a). now rewrite lstrip_space_app.
Qed.

Lemma lstrip_nil_space s : lstrip s = [] -> forallb isspace s = true.
Proof.
  induction s as [|b s IH]; cbn [lstrip forallb]; auto.
  destruct (isspace b); [auto|discriminate].
Qed.

Lemma lstrip_app_keep x y : lstrip x <> [] -> lstrip (x ++ y) = lstrip x ++ y.
Proof.
  induction x as [|b x IH]; cbn [lstrip app]; [congruence|].
  destruct (isspace b); auto.
Qed.

Lemma rstrip_app_space x b :
  forallb isspace b = true -> rstrip (x ++ b) = rstrip x.
Proof.
  intros H; unfold rstrip. rewrite rev_app_distr, lstrip_space_app; auto.
  now rewrite forallb_rev.
Qed.

(** White space around a string does not change what [strip] gives. *)
Lemma strip_pad a s b :
  forallb isspace a = true -> forallb isspace b = true ->
  strip (a ++ s ++ b) = strip s.
Proof.
  intros Ha Hb; unfold strip. rewrite lstrip_space_app by assumption.
  destruct (lstrip s) as [|c l] eqn:E.
  - apply lstrip_nil_space in E.
    rewrite lstrip_space; [reflexivity|].
    rewrite forallb_app, E, Hb; reflexivity.
  - rewrite lstrip_app_keep by (rewrite E; discriminate).
    rewrite E. now apply rstrip_app_space.
Qed.

(** [strip s] is the only string without white space at its ends that [s]
    is made of with white space around it. *)
Lemma strip_unique s lead n trail :
  s = lead ++ n ++ trail ->
  forallb isspace lead = true -> forallb isspace trail = true ->
  (forall a t, n = a :: t -> isspace a = false) ->
  (forall a t, n = t ++ [a] -> isspace a = false) ->
  strip s = n.
Proof.
  intros -> Hl Ht Hh Hlast. rewrite strip_pad by assumption.
  unfold strip, rstrip. rewrite (lstrip_fixed n Hh).
  rewrite lstrip_fixed; [apply rev_involutive|].
  intros a t H. apply (Hlast a (rev t)).
  rewrite <- (rev_involutive n), H. reflexivity.
Qed.

(** The white space of ASCII, as [str.isspace] has it: tab, line feed,
    vertical tab, form feed, carriage return, the four separators
    0x1C-0x1F and the space. *)
Lemma isspace_ascii c :
  0 <= c < 128 ->
  isspace c = true <-> 9 <= c <= 13 \/ 28 <= c <= 32.
Proof.
  intros Hc; unfold isspace, between.
  rewrite !orb_true_iff, !andb_true_iff, !Z.leb_le, !Z.eqb_eq. lia.
Qed.

(** * Facts about dictionaries *)

Section DictFacts.
Context {V : Type}.
Implicit Types (d : Dict.dict V) (k : nat) (v : V).

Lemma get_set_same k v d : Dict.get k (Dict.set k v d) = Some v.
Proof.
  induction d as [|[k' v'] d IH]; cbn.
  - now rewrite Nat.eqb_refl.
  - destruct (Nat.eqb k k') eqn:E; cbn; rewrite ?Nat.eqb_refl, ?E; auto.
Qed.

Lemma get_set_other k k' v d :
  k' <> k -> Dict.get k' (Dict.set k v d) = Dict.get k' d.
Proof.
  intros Hne; induction d as [|[k0 v0] d IH]; cbn.
  - apply Nat.eqb_neq in Hne; now rewrite Hne.
  - destruct (Nat.eqb k k0) eqn:E; cbn.
    + apply Nat.eqb_eq in E; subst k0.
      apply Nat.eqb_neq in Hne; now rewrite Hne.
    + now rewrite IH.
Qed.

Lemma keys_set_mem k v d :
  Dict.mem k d = true -> Dict.keys (Dict.set k v d) = Dict.keys d.
Proof.
  unfold Dict.mem, Dict.keys; induction d as [|[k0 v0] d IH]; cbn;
    [discriminate|].
  destruct (Nat.eqb k k0) eqn:E; cbn.
  - apply Nat.eqb_eq in E; now subst.
  - intros H; f_equal; now apply IH.
Qed.

Lemma get_remove_same k d : Dict.get k (Dict.remove k d) = None.
Proof.
  induction d as [|[k0 v0] d IH]; cbn; auto.
  destruct (Nat.eqb k k0) eqn:E; cbn; auto. now rewrite E.
Qed.




Lemma mem_remove_same k d : Dict.mem k (Dict.remove k d) = false.
Proof. unfold Dict.mem; now rewrite get_remove_same. Qed.

Lemma keys_set_incl k k' v d :
In k' (Dict.keys d) -> In k' (Dict.keys (Dict.set k v d)).
Proof.
unfold Dict.keys; induction d as [|[k0 v0] d IH]; cbn; [tauto|].
destruct (Nat.eqb_spec k k0) as [->|Hne]; cbn; auto.
intros [E|H]; auto.
Qed.

End DictFacts.

(** * Facts about the server *)

Import Server.

(** ** Updating the state *)

Lemma add_events_nil w : add_events [] w = w.
Proof. destruct w; unfold add_events; cbn; now rewrite app_nil_r. Qed.

Lemma add_events_app a b w :
  add_events b (add_events a w) = add_events (a ++ b) w.
Proof. unfold add_events; cbn; now rewrite app_assoc. Qed.


(** ** Reading a trace *)

Lemma sent_to_app c t1 t2 : sent_to c (t1 ++ t2) = sent_to c t1 ++ sent_to c t2.
Proof.
  induction t1 as [|e t1 IH]; cbn; auto.
  destruct e as [c' d lk| | |]; auto.
  destruct (sock_eqb c c'); cbn; now rewrite IH.
Qed.

Lemma calls_app t1 t2 : calls (t1 ++ t2) = calls t1 ++ calls t2.
Proof.
  induction t1 as [|e t1 IH]; cbn; auto.
  destruct e; auto. cbn; now rewrite IH.
Qed.

(** ** The fan-out loop and [broadcast], in closed form *)

Lemma step_spec m x c w :
  lock w = true ->
  (if is_excluded c x then ret tt
   else try_except (data <- encode_utf8 m ;; send c data) (fun _ => ret tt)) w
  = Returned tt (add_events (attempt m x (broken w) c) w).
Proof.
  intros Hl; unfold attempt.
  destruct (is_excluded c x); [now rewrite add_events_nil|].
  unfold try_except, bind, encode_utf8.
  destruct (encode m) as [data|]; cbn; [|now rewrite add_events_nil].
  unfold send, is_broken; rewrite Hl.
  now destruct (existsb (sock_eqb c) (broken w)).
Qed.

Lemma fan_out_spec m x targets w :
  lock w = true ->
  fan_out m x targets w
  = Returned tt (add_events (flat_map (attempt m x (broken w)) targets) w).
Proof.
  revert w; induction targets as [|c rest IH]; intros w Hl; cbn [fan_out flat_map].
  - now rewrite add_events_nil.
  - unfold bind at 1. rewrite step_spec by assumption.
    rewrite IH by assumption. now rewrite add_events_app.
Qed.

Lemma broadcast_free m x w :
  lock w = false ->
  broadcast m x w = Returned tt (add_events (Called m x :: fan_events m x w) w).
Proof.
  intros Hl; unfold broadcast, with_lock, bind, acquire, try_finally, release.
  cbn [lock add_events]; rewrite Hl.
  rewrite fan_out_spec by reflexivity; cbn [clients broken set_lock add_events].
  destruct w; cbn in *; subst.
  unfold fan_events, set_lock, add_events, Dict.keys; cbn.
  now rewrite <- app_assoc.
Qed.

Lemma broadcast_locked m x w :
  lock w = true -> broadcast m x w = Suspended OnLock (add_events [Called m x] w).
Proof.
  intros Hl; unfold broadcast, with_lock, bind, acquire.
  cbn [lock add_events]; now rewrite Hl.
Qed.

Lemma attempt_live m x brk c data :
  is_excluded c x = false -> encode m = Some data ->
  existsb (sock_eqb c) brk = false -> attempt m x brk c = [Sent c data true].
Proof. unfold attempt; now intros -> -> ->. Qed.

Lemma attempt_broken m x brk c data :
  is_excluded c x = false -> encode m = Some data ->
  existsb (sock_eqb c) brk = true -> attempt m x brk c = [SendFailed c true].
Proof. unfold attempt; now intros -> -> ->. Qed.

Lemma attempt_io m x brk c e :
  In e (attempt m x brk c) ->
  (exists data, e = Sent c data true /\ encode m = Some data
                /\ is_excluded c x = false)
  \/ e = SendFailed c true.
Proof.
  unfold attempt. destruct (is_excluded c x); [intros []|].
  destruct (encode m) as [data|]; [|intros []].
  destruct (existsb (sock_eqb c) brk); intros [<-|[]]; eauto.
Qed.

Lemma fan_events_io m x w e :
  In e (fan_events m x w) ->
  exists c, In c (Dict.keys (clients w)) /\
    ((exists data, e = Sent c data true /\ encode m = Some data
                   /\ is_excluded c x = false)
     \/ e = SendFailed c true).
Proof.
  unfold fan_events; intros H; apply in_flat_map in H.
  destruct H as (c & Hc & He); exists c; split; auto.
  eapply attempt_io; eauto.
Qed.

Lemma calls_fan_events m x w : calls (fan_events m x w) = [].
Proof.
  unfold fan_events; induction (Dict.keys (clients w)) as [|c l IH]; cbn; auto.
  rewrite calls_app, IH, app_nil_r. unfold attempt.
  destruct (is_excluded c x); auto. destruct (encode m); auto.
  now destruct (existsb (sock_eqb c) (broken w)).
Qed.


Lemma new_events_app w w' new :
  trace w' = trace w ++ new -> new_events w w' = new.
Proof.
  unfold new_events; intros ->.
  rewrite skipn_app, skipn_all, Nat.sub_diag; reflexivity.
Qed.

Lemma new_events_add evs w : new_events w (add_events evs w) = evs.
Proof. now apply new_events_app. Qed.


Lemma listen_spec c u input w :
  lock w = false ->
  listen c u input w
  = finish (stop input) u (add_events (relay_events c u (relayed input) w) w).
Proof.
  revert w; induction input as [|r rest IH]; intros w Hl; cbn [listen stop relayed].
  - unfold relay_events; cbn; now rewrite add_events_nil.
  - destruct r as [d|]; cbn [recv].
    2:{ unfold bind, raise; cbn. unfold relay_events; cbn.
        now rewrite add_events_nil. }
    unfold bind at 1, ret at 1. unfold bind at 1, decode_utf8.
    destruct (decode d) as [[|a s]|]; cbn [ret raise is_empty finish].
    + unfold relay_events; cbn; now rewrite add_events_nil.
    + unfold bind at 1. rewrite broadcast_free by assumption.
      rewrite IH by assumption.
      unfold relay_events; cbn [flat_map].
      now rewrite add_events_app.
    + unfold relay_events; cbn; now rewrite add_events_nil.
Qed.

Lemma register_spec c u w :
  lock w = false ->
  register c u w = Returned tt (set_clients (Dict.set c u (clients w)) w).
Proof.
  intros Hl; unfold register, with_lock, bind, acquire, try_finally, release.
  rewrite Hl; destruct w; cbn in *; now subst.
Qed.

Lemma handshake_spec c d s w :
  lock w = false -> decode d = Some s ->
  let w1 := set_clients (Dict.set c (strip s) (clients w)) w in
  handshake c (Chunk d) w
  = Returned (strip s)
      (add_events (broadcast_events (join_msg (strip s)) (Some c) w1) w1).
Proof.
  intros Hl Hd; unfold handshake; cbn [recv].
  unfold bind at 1, ret at 1. unfold bind at 1, decode_utf8; rewrite Hd.
  unfold ret at 1. unfold bind at 1; rewrite register_spec by assumption.
  unfold bind at 1; rewrite broadcast_free by assumption.
  reflexivity.
Qed.

Lemma cleanup_spec c w :
  lock w = false ->
  cleanup c w
  = match Dict.get c (clients w) with
    | Some n =>
        Suspended OnLock
          (add_events [Called (leave_msg n) None]
             (set_lock true (set_clients (Dict.remove c (clients w)) w)))
    | None => Returned tt (add_events [Closed c] (set_broken c w))
    end.
Proof.
  intros Hl; unfold cleanup, with_lock, bind at 1, bind at 1, acquire.
  rewrite Hl; unfold try_finally, Dict.mem; cbn [clients set_lock].
  destruct (Dict.get c (clients w)) as [n|] eqn:Hg.
  - unfold bind, pop; cbn [clients set_lock]; rewrite Hg.
    rewrite broadcast_locked by reflexivity. reflexivity.
  - unfold release, try_except, close.
    destruct w; cbn in *; now subst.
Qed.

Lemma cleanup_locked c w : lock w = true -> cleanup c w = Suspended OnLock w.
Proof.
  intros Hl; unfold cleanup, with_lock, bind, acquire; now rewrite Hl.
Qed.

Lemma run_listen_spec c u input w :
  lock w = false ->
  let w1 := add_events (relay_events c u (relayed input) w) w in
  run_from (AwaitData u) c input w
  = match stop input with
    | Starved => Suspended (OnRecv (AwaitData u)) w1
    | _ => cleanup c w1
    end.
Proof.
  intros Hl w1; unfold run_from, body, try_finally, try_except.
  rewrite listen_spec by assumption; fold w1.
  assert (Hl1 : lock w1 = false) by exact Hl.
  destruct (stop input); cbn [finish ret]; auto;
    rewrite cleanup_spec by assumption;
    now destruct (Dict.get c (clients w1)).
Qed.

(** ** Resuming a suspended session *)

Lemma broadcast_never_waits_for_data m x w p w' :
  broadcast m x w <> Suspended (OnRecv p) w'.
Proof.
  destruct (lock w) eqn:Hl.
  - rewrite broadcast_locked by assumption; congruence.
  - rewrite broadcast_free by assumption; congruence.
Qed.

Lemma listen_resume c u i1 i2 p w w' :
  listen c u i1 w = Suspended (OnRecv p) w' ->
  listen c u (i1 ++ i2) w = body p c i2 w'.
Proof.
  revert w; induction i1 as [|r rest IH]; intros w; cbn [listen app].
  - unfold suspend; intros [= <- <-]; reflexivity.
  - unfold bind.
    destruct r as [d|]; cbn [recv]; unfold ret, raise; [|easy].
    unfold decode_utf8; destruct (decode d) as [s|]; unfold ret, raise;
      [|easy].
    destruct (is_empty s); [easy|].
    destruct (broadcast (data_msg u s) (Some c) w) as [[] w3| |] eqn:Hb;
      try easy; [apply IH|].
    intros [= -> ->]; exfalso; eapply broadcast_never_waits_for_data; eauto.
Qed.

Lemma body_resume p c i1 i2 p' w w' :
  body p c i1 w = Suspended (OnRecv p') w' ->
  body p c (i1 ++ i2) w = body p' c i2 w'.
Proof.
  assert (Henter : forall w0,
    enter c i1 w0 = Suspended (OnRecv p') w' ->
    enter c (i1 ++ i2) w0 = body p' c i2 w').
  { intros w0; destruct i1 as [|r rest]; cbn [enter app].
    - unfold suspend; intros [= <- <-]; reflexivity.
    - unfold bind at 1 2.
      destruct (handshake c r w0) as [u w1| |] eqn:Hh.
      + apply listen_resume.
      + easy.
      + intros [= -> ->]; exfalso; revert Hh.
        unfold handshake, bind.
        destruct r as [d|]; cbn [recv]; unfold ret, raise; [|easy].
        unfold decode_utf8; destruct (decode d) as [s|]; unfold ret, raise;
          [|easy].
        destruct (register c (strip s) w0) as [[] w3| |] eqn:Hr;
          try easy.
        * destruct (broadcast (join_msg (strip s)) (Some c) w3)
            as [[] w4| |] eqn:Hb; try easy.
          intros [= -> ->]; eapply broadcast_never_waits_for_data; eauto.
        * intros [= -> ->]; destruct (lock w0) eqn:Hl.
          -- revert Hr; unfold register, with_lock, bind, acquire.
             rewrite Hl; easy.
          -- rewrite register_spec in Hr by assumption; easy. }
  destruct p; cbn [body].
  - unfold bind at 1 2. destruct (greet c w) as [[] w1| |] eqn:Hg.
    + apply Henter.
    + easy.
    + intros [= -> ->]; exfalso; revert Hg.
      unfold greet, bind, encode_utf8, send.
      destruct (encode welcome_msg); cbn; [|easy].
      destruct (is_broken c w); easy.
  - apply Henter.
  - apply listen_resume.
Qed.

(** A session suspended in [recv] goes on, when more input arrives, exactly
    as the handler run on the whole input would. *)
Lemma run_from_resume p c i1 i2 p' w w' :
  run_from p c i1 w = Suspended (OnRecv p') w' ->
  run_from p c (i1 ++ i2) w = run_from p' c i2 w'.
Proof.
  unfold run_from, try_finally at 1, try_except at 1.
  destruct (body p c i1 w) as [[] w1|e w1|q w1] eqn:Hb.
  - cbn [ret]. destruct (lock w1) eqn:Hl.
    + rewrite cleanup_locked by assumption; easy.
    + rewrite cleanup_spec by assumption.
      destruct (Dict.get c (clients w1)); easy.
  - cbn [ret]. destruct (lock w1) eqn:Hl.
    + rewrite cleanup_locked by assumption; easy.
    + rewrite cleanup_spec by assumption.
      destruct (Dict.get c (clients w1)); easy.
  - intros [= -> ->].
    unfold try_finally, try_except.
    now rewrite (body_resume _ _ _ i2 _ _ _ Hb).
Qed.

(** ** What a run can add to the trace, whatever the state of the lock *)

Section Emits.
Variable Q : Event -> Prop.

Lemma grows_same w w' : trace w' = trace w -> grows Q w w'.
Proof. intros E; exists []; rewrite E, app_nil_r; auto. Qed.

Lemma grows_refl w : grows Q w w.
Proof. now apply grows_same. Qed.

Lemma grows_trans w1 w2 w3 : grows Q w1 w2 -> grows Q w2 w3 -> grows Q w1 w3.
Proof.
  intros (n1 & E1 & F1) (n2 & E2 & F2); exists (n1 ++ n2); split.
  - now rewrite E2, E1, app_assoc.
  - apply Forall_app; auto.
Qed.

Lemma grows_add evs w w' :
  trace w' = trace w -> Forall Q evs -> grows Q w (add_events evs w').
Proof. intros E F; exists evs; cbn; now rewrite E. Qed.

Lemma grows_new w w' : grows Q w w' -> Forall Q (new_events w w').
Proof. intros (new & E & F); now rewrite (new_events_app _ _ _ E). Qed.

Lemma emits_ret {A} (a : A) : emits Q (ret a).
Proof. intros w; apply grows_refl. Qed.

Lemma emits_raise {A} e : emits Q (@raise A e).
Proof. intros w; apply grows_refl. Qed.

Lemma emits_suspend {A} p : emits Q (@suspend A p).
Proof. intros w; apply grows_refl. Qed.

Lemma emits_bind {A B} (m : M A) (k : A -> M B) :
  emits Q m -> (forall a, emits Q (k a)) -> emits Q (bind m k).
Proof.
  intros Hm Hk w; unfold bind; specialize (Hm w).
  destruct (m w) as [a w1|e w1|p w1]; cbn in *; auto.
  eapply grows_trans; [exact Hm|apply Hk].
Qed.

Lemma emits_try_except {A} (m : M A) (h : Exn -> M A) :
  emits Q m -> (forall e, emits Q (h e)) -> emits Q (try_except m h).
Proof.
  intros Hm Hh w; unfold try_except; specialize (Hm w).
  destruct (m w) as [a w1|e w1|p w1]; cbn in *; auto.
  eapply grows_trans; [exact Hm|apply Hh].
Qed.

Lemma emits_try_finally {A} (m : M A) (f : M unit) :
  emits Q m -> emits Q f -> emits Q (try_finally m f).
Proof.
  intros Hm Hf w; unfold try_finally; specialize (Hm w).
  destruct (m w) as [a w1|e w1|p w1]; cbn in *; auto;
    specialize (Hf w1); destruct (f w1); cbn in *;
    eapply grows_trans; eauto.
Qed.

Lemma emits_with_lock {A} (m : M A) : emits Q m -> emits Q (with_lock m).
Proof.
  intros Hm; unfold with_lock; apply emits_bind.
  - intros w; unfold acquire; destruct (lock w); now apply grows_same.
  - intros _; apply emits_try_finally; auto.
    intros w; now apply grows_same.
Qed.

Lemma emits_decode_utf8 d : emits Q (decode_utf8 d).
Proof.
  unfold decode_utf8; destruct (decode d); [apply emits_ret|apply emits_raise].
Qed.

Lemma emits_recv r : emits Q (recv r).
Proof. destruct r; [apply emits_ret|apply emits_raise]. Qed.

Lemma emits_broadcast m x :
  Q (Called m x) ->
  (forall c data,
      is_excluded c x = false -> encode m = Some data -> Q (Sent c data true)) ->
  (forall c, Q (SendFailed c true)) ->
  emits Q (broadcast m x).
Proof.
  intros Hcall Hsent Hfail w. destruct (lock w) eqn:Hl.
  - rewrite broadcast_locked by assumption; cbn [world_of].
    apply grows_add; auto.
  - rewrite broadcast_free by assumption; cbn [world_of].
    apply grows_add; auto. constructor; auto.
    apply Forall_forall; intros e He.
    apply fan_events_io in He. destruct He as (c & _ & [(d & -> & ? & ?)| ->]);
      auto.
Qed.

Variable c : sock.
Hypothesis Q_called : forall m x, Q (Called m x).
Hypothesis Q_relay : forall c' data, c' <> c -> Q (Sent c' data true).
Hypothesis Q_failed : forall c', Q (SendFailed c' true).
Hypothesis Q_closed : Q (Closed c).

Lemma emits_relay m : emits Q (broadcast m (Some c)).
Proof.
  apply emits_broadcast; auto.
  intros c' data Hx _; apply Q_relay.
  cbn in Hx; unfold sock_eqb in Hx; now apply Nat.eqb_neq in Hx.
Qed.

Lemma emits_listen u input : emits Q (listen c u input).
Proof.
  induction input as [|r rest IH]; cbn [listen].
  - apply emits_suspend.
  - apply emits_bind; [apply emits_recv|intros raw].
    apply emits_bind; [apply emits_decode_utf8|intros s].
    destruct (is_empty s); [apply emits_ret|].
    apply emits_bind; [apply emits_relay|auto].
Qed.

Lemma emits_handshake r : emits Q (handshake c r).
Proof.
  unfold handshake.
  apply emits_bind; [apply emits_recv|intros raw].
  apply emits_bind; [apply emits_decode_utf8|intros s].
  apply emits_bind.
  { apply emits_with_lock; intros w; now apply grows_same. }
  intros _; apply emits_bind; [apply emits_relay|intros _; apply emits_ret].
Qed.

Lemma emits_enter input : emits Q (enter c input).
Proof.
  destruct input as [|r rest]; cbn [enter]; [apply emits_suspend|].
  apply emits_bind; [apply emits_handshake|intros u; apply emits_listen].
Qed.

Lemma emits_cleanup : emits Q (cleanup c).
Proof.
  intros w; destruct (lock w) eqn:Hl.
  - rewrite cleanup_locked by assumption; apply grows_refl.
  - rewrite cleanup_spec by assumption.
    destruct (Dict.get c (clients w)); cbn [world_of];
      apply grows_add; auto.
Qed.

(** A session resumed at one of its [recv] calls. *)
Lemma emits_resumed p input :
  p <> Accepted -> emits Q (run_from p c input).
Proof.
  intros Hp; unfold run_from.
  apply emits_try_finally; [|apply emits_cleanup].
  apply emits_try_except; [|intros _; apply emits_ret].
  destruct p; cbn [body]; [congruence|apply emits_enter|apply emits_listen].
Qed.

Hypothesis Q_greeting :
  forall data lk, encode welcome_msg = Some data -> Q (Sent c data lk).
Hypothesis Q_greeting_failed : forall lk, Q (SendFailed c lk).

Lemma emits_greet : emits Q (greet c).
Proof.
  intros w; unfold greet, bind, encode_utf8.
  destruct (encode welcome_msg) as [data|] eqn:E; cbn; [|apply grows_refl].
  unfold send; destruct (is_broken c w); cbn [world_of];
    apply grows_add; auto.
Qed.

(** A whole session, from the accepted connection on. *)
Lemma emits_run_from p input : emits Q (run_from p c input).
Proof.
  destruct p; try (apply emits_resumed; congruence).
  unfold run_from.
  apply emits_try_finally; [|apply emits_cleanup].
  apply emits_try_except; [|intros _; apply emits_ret].
  cbn [body]; apply emits_bind; [apply emits_greet|intros _; apply emits_enter].
Qed.

End Emits.

(** ** More on reading traces *)

Lemma in_sent_to p data evs :
  In data (sent_to p evs) -> exists lk, In (Sent p data lk) evs.
Proof.
  induction evs as [|e evs IH]; cbn; [tauto|].
  destruct e as [c' d lk| | |]; try (intros H; destruct (IH H) as [k ?]; eauto).
  unfold sock_eqb; destruct (Nat.eqb_spec p c') as [<-|Hne].
  - intros [<-|H]; eauto. destruct (IH H) as [k ?]; eauto.
  - intros H; destruct (IH H) as [k ?]; eauto.
Qed.


Lemma sent_to_none p evs :
  (forall data lk, ~ In (Sent p data lk) evs) -> sent_to p evs = [].
Proof.
  intros H; destruct (sent_to p evs) as [|data l] eqn:E; auto.
  destruct (in_sent_to p data evs) as [lk Hin]; [rewrite E; now left|].
  now apply H in Hin.
Qed.

Lemma calls_relay_events c u bodies w :
  calls (relay_events c u bodies w)
  = map (fun s => (data_msg u s, Some c)) bodies.
Proof.
  unfold relay_events; induction bodies as [|s l IH]; cbn; auto.
  now rewrite calls_app, calls_fan_events, IH.
Qed.

Lemma in_relay_events c u bodies w e :
  In e (relay_events c u bodies w) ->
  exists s, In s bodies /\
    (e = Called (data_msg u s) (Some c) \/
     In e (fan_events (data_msg u s) (Some c) w)).
Proof.
  unfold relay_events; intros H; apply in_flat_map in H.
  destruct H as (s & Hs & [<-|He]); eauto.
Qed.

Lemma relayed_chunks chunks :
  Forall (fun d => exists s, decode d = Some s /\ s <> []) chunks ->
  map decode chunks = map Some (relayed (map Chunk chunks))
  /\ stop (map Chunk chunks) = Starved.
Proof.
  induction 1 as [|d l (s & Hd & Hs) _ [IH1 IH2]]; cbn; auto.
  rewrite Hd. destruct s as [|a s]; [congruence|]. cbn. now rewrite IH1.
Qed.

Lemma welcome_encodes : exists data, encode welcome_msg = Some data.
Proof. eexists; vm_compute; reflexivity. Qed.

(** ** The transport: what successive [recv] calls return *)

Lemma buffer_size_pos : (0 < BUFFER_SIZE)%nat.
Proof. unfold BUFFER_SIZE; apply Nat.lt_0_succ. Qed.

Lemma recv_split_spec fuel (pending : bytes) :
  (List.length pending <= fuel)%nat ->
  List.concat (recv_split fuel pending) = pending
  /\ Forall (fun d => (0 < List.length d <= BUFFER_SIZE)%nat)
       (recv_split fuel pending).
Proof.
  pose proof buffer_size_pos as Hpos.
  revert pending; induction fuel as [|fuel IH]; intros pending Hn.
  - destruct pending; [cbn; auto|cbn in Hn; lia].
  - destruct pending as [|b rest]; [cbn; auto|].
    cbn [recv_split List.concat].
    destruct (IH (skipn BUFFER_SIZE (b :: rest))) as [Hc Hf].
    { rewrite length_skipn; cbn [List.length] in *; lia. }
    split.
    + rewrite Hc; apply firstn_skipn.
    + constructor; auto. rewrite length_firstn; cbn [List.length]; lia.
Qed.

(** Bytes that are all pending are handed out in pieces of at most
    [BUFFER_SIZE] bytes that add up to them; more than [BUFFER_SIZE] bytes
    take more than one [recv]. *)
Lemma recv_calls_spec (pending : bytes) :
  List.concat (recv_calls pending) = pending
  /\ Forall (fun d => (0 < List.length d <= BUFFER_SIZE)%nat)
       (recv_calls pending)
  /\ ((BUFFER_SIZE < List.length pending)%nat ->
      (2 <= List.length (recv_calls pending))%nat).
Proof.
  destruct (recv_split_spec (List.length pending) pending (le_n _)) as [Hc Hf].
  fold (recv_calls pending) in Hc, Hf. repeat split; auto.
  intros Hlong. destruct (recv_calls pending) as [|d1 [|d2 l]]; cbn; try lia.
  - cbn in Hc; subst pending; cbn in Hlong; lia.
  - cbn in Hc; rewrite app_nil_r in Hc; subst d1.
    inversion Hf; subst; lia.
Qed.

(** ** The messages of a session can always be encoded *)

Lemma join_msg_encodes d s :
  decode d = Some s -> exists data, encode (join_msg (strip s)) = Some data.
Proof.
  intros H; apply well_formed_encode; unfold join_msg.
  rewrite well_formed_app, well_formed_strip by (eapply decode_well_formed, H).
  reflexivity.
Qed.


(** ** The whole handler, in closed form, when the lock is free *)

Lemma greet_spec c data w :
  encode welcome_msg = Some data ->
  greet c w = if is_broken c w
              then Raised OSError (add_events [SendFailed c (lock w)] w)
              else Returned tt (add_events [Sent c data (lock w)] w).
Proof. intros E; unfold greet, bind, encode_utf8; rewrite E; reflexivity. Qed.


(** * The claims *)

(** ** C1: framing *)

(** C1, as stated, fails, on both counts.  It is not true that the bytes
    written for a message are a frame with a four-byte big-endian length in
    front: for "hi" they are the bare two bytes of the payload.  And it is not
    true that a payload split into chunks over successive [recv] calls is
    handed on exactly once: "hello" arriving as "hel" and then "lo" is
    relayed as two messages. *)
Lemma C1_counterexample :
  ~ (forall m x w c data lk,
        In (Sent c data lk) (new_events w (world_of (broadcast m x w))) ->
        exists payload, encode m = Some payload
                        /\ data = length_prefixed payload)
  /\ ~ (forall c u s data chunks w,
          lock w = false -> s <> [] -> encode s = Some data ->
          Forall (fun d => d <> []) chunks -> List.concat chunks = data ->
          calls (new_events w (world_of (listen c u (map Chunk chunks) w)))
          = [(data_msg u s, Some c)]).
Proof.
  split; intros H.
  - destruct (H (lit "hi") (Some 1%nat) two_clients 2%nat [104; 105] true)
      as (payload & He & Hd); [vm_compute; auto|].
    vm_compute in He; injection He as <-. vm_compute in Hd; discriminate Hd.
  - specialize (H 1%nat (lit "alice") (lit "hello") (lit "hello")
                  [lit "hel"; lit "lo"] two_clients).
    assert (E : calls (new_events two_clients
                         (world_of (listen 1%nat (lit "alice")
                                      (map Chunk [lit "hel"; lit "lo"])
                                      two_clients)))
                = [(lit "alice: hel", Some 1%nat); (lit "alice: lo", Some 1%nat)])
      by (vm_compute; reflexivity).
    rewrite E in H.
    assert (F : [(lit "alice: hel", Some 1%nat); (lit "alice: lo", Some 1%nat)]
                = [(data_msg (lit "alice") (lit "hello"), Some 1%nat)]).
    { apply H; try reflexivity; try discriminate.
      repeat constructor; discriminate. }
    discriminate F.
Qed.

(** C1, amended: messages travel as bare UTF-8 payloads with no length
    prefix, and the receive loop treats every [recv] result as one logical
    message.  For any sequence of chunks that each decode to a non-empty
    string, the loop hands exactly one message per chunk to [broadcast], in
    order, built from the decoding of that chunk alone; every byte string
    written is the plain encoding of such a message; and a payload that
    arrives whole decodes to the string that was encoded (and to no
    other). *)
Theorem C1_one_recv_one_message
    (c : sock) (u : str) (chunks : list bytes) (w : World) :
  lock w = false ->
  Forall (fun d => exists s, decode d = Some s /\ s <> []) chunks ->
  let w' := world_of (listen c u (map Chunk chunks) w) in
  let bodies := relayed (map Chunk chunks) in
  map decode chunks = map Some bodies
  /\ calls (new_events w w') = map (fun s => (data_msg u s, Some c)) bodies
  /\ (forall p data lk,
        In (Sent p data lk) (new_events w w') ->
        exists s, In s bodies /\ encode (data_msg u s) = Some data)
  /\ (forall s data, encode s = Some data <-> decode data = Some s).
Proof.
  intros Hl Hc w' bodies.
  destruct (relayed_chunks chunks Hc) as [Hmap Hstop].
  assert (Hnew : new_events w w' = relay_events c u bodies w).
  { subst w'; rewrite listen_spec, Hstop by assumption.
    cbn [finish world_of]; apply new_events_add. }
  rewrite Hnew; repeat split.
  - exact Hmap.
  - apply calls_relay_events.
  - intros p data lk Hin. apply in_relay_events in Hin.
    destruct Hin as (s & Hs & [E|Hf]); [discriminate|].
    exists s; split; auto.
    apply fan_events_io in Hf.
    destruct Hf as (c' & _ & [(d' & E & He & _)|E]); [|discriminate].
    injection E as ? ? ?; now subst.
  - apply decode_encode.
  - apply encode_decode.
Qed.

Lemma C1_one_recv_one_message_witness :
  lock two_clients = false
  /\ Forall (fun d => exists s, decode d = Some s /\ s <> [])
       [lit "hel"; lit "lo"]
  /\ map decode [lit "hel"; lit "lo"]
     = map Some (relayed (map Chunk [lit "hel"; lit "lo"]))
  /\ calls (new_events two_clients
              (world_of (listen 1%nat (lit "alice")
                           (map Chunk [lit "hel"; lit "lo"]) two_clients)))
     = map (fun s => (data_msg (lit "alice") s, Some 1%nat))
         (relayed (map Chunk [lit "hel"; lit "lo"])).
Proof.
  assert (H : Forall (fun d => exists s, decode d = Some s /\ s <> [])
                [lit "hel"; lit "lo"]).
  { repeat constructor; eexists;
      (split; [vm_compute; reflexivity|discriminate]). }
  split; [reflexivity|]. split; [exact H|].
  pose proof (C1_one_recv_one_message 1%nat (lit "alice")
                [lit "hel"; lit "lo"] two_clients eq_refl H) as T.
  split; [exact (proj1 T)|exact (proj1 (proj2 T))].
Defined.

(** ** C2: a disconnect *)

(** C2: alice (socket 1) and bob (socket 2) join; alice's connection reaches
    end of stream.  Her handler removes her from the registry and then, still
    holding the lock, calls [broadcast], which waits for that same lock: the
    handler never proceeds, bob is sent nothing, and from then on bob's next
    message and the handshake of a new client wait for the lock as well. *)
Theorem C2_disconnect_deadlocks :
  _handle_client 1%nat [Chunk (lit "alice")] idle
  = Suspended (OnRecv (AwaitData (lit "alice"))) after_alice
  /\ _handle_client 2%nat [Chunk (lit "bob")] after_alice
     = Suspended (OnRecv (AwaitData (lit "bob"))) after_bob
  /\ clients after_bob = [(1%nat, lit "alice"); (2%nat, lit "bob")]
  /\ run_from (AwaitData (lit "alice")) 1%nat [Chunk []] after_bob
     = Suspended OnLock alice_gone
  /\ clients alice_gone = [(2%nat, lit "bob")]
  /\ lock alice_gone = true
  /\ calls (new_events after_bob alice_gone)
     = [(lit "alice left the chat", None)]
  /\ sent_to 2%nat (new_events after_bob alice_gone) = []
  /\ run_from (AwaitData (lit "bob")) 2%nat [Chunk (lit "hi")] alice_gone
     = Suspended OnLock
         (add_events [Called (lit "bob: hi") (Some 2%nat)] alice_gone)
  /\ exists w,
       _handle_client 3%nat [Chunk (lit "carol")] alice_gone = Suspended OnLock w
       /\ clients w = clients alice_gone
       /\ sent_to 2%nat (new_events alice_gone w) = [].
Proof.
  repeat (split; [vm_compute; reflexivity|]).
  eexists; repeat split; vm_compute; reflexivity.
Qed.

(** The defect behind C2 in general: whenever the connection of a registered
    session reaches end of stream, its handler removes the entry and then
    stops at the lock it already holds, having sent nothing to anyone. *)
Lemma disconnect_blocks c u n w :
  lock w = false -> Dict.get c (clients w) = Some n ->
  exists w',
    run_from (AwaitData u) c [Chunk []] w = Suspended OnLock w'
    /\ lock w' = true
    /\ Dict.mem c (clients w') = false
    /\ new_events w w' = [Called (leave_msg n) None].
Proof.
  intros Hl Hg; rewrite run_listen_spec by assumption.
  cbn [stop relayed decode relay_events flat_map]; rewrite add_events_nil.
  rewrite cleanup_spec, Hg by assumption.
  eexists; repeat split.
  - cbn; apply mem_remove_same.
  - now apply new_events_app.
Qed.

(** Once the lock is taken and its holder is stuck, every step of every
    session ends suspended, with the lock still taken, the registry as it was
    and nothing relayed. *)
Lemma stuck_while_locked p c input w :
  lock w = true ->
  exists at_ w',
    run_from p c input w = Suspended at_ w'
    /\ lock w' = true
    /\ clients w' = clients w
    /\ forall c', c' <> c -> sent_to c' (new_events w w') = [].
Proof.
  intros Hl.
  pose (quiet := fun w0 w' : World =>
    lock w' = true /\ clients w' = clients w0
    /\ exists new, trace w' = trace w0 ++ new
                   /\ forall c', sent_to c' new = []).
  assert (Hsame : forall w0, lock w0 = true -> quiet w0 w0).
  { intros w0 H0; repeat split; auto. exists []; now rewrite app_nil_r. }
  assert (Hcall : forall w0 m x,
             lock w0 = true -> quiet w0 (add_events [Called m x] w0)).
  { intros w0 m x H0; repeat split; auto. now exists [Called m x]. }
  assert (Hlisten : forall u w0, lock w0 = true ->
    exists at_ w', try_finally (try_except (listen c u input) (fun _ => ret tt))
                     (cleanup c) w0 = Suspended at_ w' /\ quiet w0 w').
  { intros u w0 H0; unfold try_finally, try_except.
    destruct input as [|[d|] rest]; cbn [listen].
    - do 2 eexists; split; [reflexivity|auto].
    - unfold bind, recv, ret, decode_utf8.
      destruct (decode d) as [[|a s]|]; cbn [is_empty raise ret];
        rewrite ?cleanup_locked by assumption;
        try (do 2 eexists; split; [reflexivity|auto]).
      rewrite broadcast_locked by assumption.
      do 2 eexists; split; [reflexivity|auto].
    - unfold bind, recv, raise, ret. rewrite cleanup_locked by assumption.
      do 2 eexists; split; [reflexivity|auto]. }
  assert (Henter : forall w0, lock w0 = true ->
    exists at_ w', try_finally (try_except (enter c input) (fun _ => ret tt))
                     (cleanup c) w0 = Suspended at_ w' /\ quiet w0 w').
  { intros w0 H0; unfold try_finally, try_except.
    destruct input as [|[d|] rest]; cbn [enter].
    - do 2 eexists; split; [reflexivity|auto].
    - unfold handshake, bind, recv, ret, decode_utf8.
      destruct (decode d) as [s|]; cbn [raise ret].
      + unfold register, with_lock, bind, acquire; rewrite H0.
        do 2 eexists; split; [reflexivity|auto].
      + rewrite cleanup_locked by assumption.
        do 2 eexists; split; [reflexivity|auto].
    - unfold handshake, bind, recv, raise, ret.
      rewrite cleanup_locked by assumption.
      do 2 eexists; split; [reflexivity|auto]. }
  assert (Hquiet : forall w', quiet w w' ->
    lock w' = true /\ clients w' = clients w
    /\ forall c', c' <> c -> sent_to c' (new_events w w') = []).
  { intros w' (L & C & new & E & S); repeat split; auto.
    intros c' _; now rewrite (new_events_app _ _ _ E). }
  destruct p as [| |u].
  - destruct welcome_encodes as [data He].
    unfold run_from; cbn [body].
    destruct (is_broken c w) eqn:Hb.
    + unfold try_finally, try_except, bind.
      rewrite (greet_spec _ _ _ He), Hb, Hl. cbn [ret].
      rewrite cleanup_locked by assumption.
      do 2 eexists; split; [reflexivity|]. repeat split; auto.
      intros; now rewrite new_events_add.
    + destruct (Henter (add_events [Sent c data true] w) Hl)
        as (a & w' & E & L & C & new & Et & S).
      exists a, w'; repeat split; auto.
      * rewrite <- E. unfold try_finally, try_except, bind.
        now rewrite (greet_spec _ _ _ He), Hb, Hl.
      * intros c' Hne. cbn in Et. rewrite <- app_assoc in Et.
        rewrite (new_events_app _ _ _ Et). cbn. unfold sock_eqb.
        destruct (Nat.eqb_spec c' c); [congruence|apply S].
  - destruct (Henter w Hl) as (a & w' & E & Hq).
    exists a, w'; split; auto.
  - destruct (Hlisten u w Hl) as (a & w' & E & Hq).
    exists a, w'; split; auto.
Qed.

(** ** C3: the lock and network I/O *)

(** C3, as stated, fails: it is not true that every send made by [broadcast]
    happens while the lock is free.  With alice and bob registered, the relay
    of "hi" to bob is written while the lock is taken. *)
Lemma C3_counterexample :
  ~ (forall m x w e,
        In e (new_events w (world_of (broadcast m x w))) ->
        is_io e = true -> io_under_lock e = false).
Proof.
  intros H.
  specialize (H (lit "hi") (Some 1%nat) two_clients (Sent 2%nat [104; 105] true)).
  assert (E : true = false); [|discriminate E].
  apply H; [vm_compute; auto|reflexivity].
Qed.

(** C3, amended: the lock is held across network I/O.  Every send that
    [broadcast] attempts is made inside the critical section, and in a whole
    session the only send attempt that can be made outside it is the greeting
    on the session's own socket. *)
Theorem C3_sends_inside_the_lock :
  (forall m x w e,
      In e (new_events w (world_of (broadcast m x w))) ->
      is_io e = true -> io_under_lock e = true)
  /\ (forall p c input w e,
        In e (new_events w (world_of (run_from p c input w))) ->
        is_io e = true ->
        io_under_lock e = true
        \/ (exists data lk, e = Sent c data lk /\ encode welcome_msg = Some data)
        \/ (exists lk, e = SendFailed c lk)).
Proof.
  split.
  - intros m x w e Hin Hio.
    assert (G : emits (fun e => is_io e = true -> io_under_lock e = true)
                  (broadcast m x)).
    { apply emits_broadcast; cbn; auto; discriminate. }
    specialize (G w); apply grows_new in G.
    rewrite Forall_forall in G. now apply G.
  - intros p c input w e Hin Hio.
    pose (Q := fun e =>
      is_io e = true ->
      io_under_lock e = true
      \/ (exists data lk, e = Sent c data lk /\ encode welcome_msg = Some data)
      \/ (exists lk, e = SendFailed c lk)).
    assert (G : emits Q (run_from p c input)).
    { apply emits_run_from; unfold Q; cbn; auto; try discriminate.
      - intros data lk He _; right; left; eauto.
      - intros lk _; right; right; eauto. }
    specialize (G w); apply grows_new in G.
    rewrite Forall_forall in G. now apply G.
Qed.

Lemma C3_sends_inside_the_lock_witness :
  In (Sent 2%nat [104; 105] true)
     (new_events two_clients
        (world_of (broadcast (lit "hi") (Some 1%nat) two_clients)))
  /\ is_io (Sent 2%nat [104; 105] true) = true
  /\ io_under_lock (Sent 2%nat [104; 105] true) = true
  /\ In (Sent 1%nat (lit "bob: hi") true)
       (new_events after_bob
          (world_of (run_from (AwaitData (lit "bob")) 2%nat
                       [Chunk (lit "hi")] after_bob)))
  /\ (io_under_lock (Sent 1%nat (lit "bob: hi") true) = true
      \/ (exists data lk,
             Sent 1%nat (lit "bob: hi") true = Sent 2%nat data lk
             /\ encode welcome_msg = Some data)
      \/ (exists lk, Sent 1%nat (lit "bob: hi") true = SendFailed 2%nat lk)).
Proof.
  assert (H : In (Sent 2%nat [104; 105] true)
                (new_events two_clients
                   (world_of (broadcast (lit "hi") (Some 1%nat) two_clients))))
    by (vm_compute; auto).
  assert (G : In (Sent 1%nat (lit "bob: hi") true)
                (new_events after_bob
                   (world_of (run_from (AwaitData (lit "bob")) 2%nat
                                [Chunk (lit "hi")] after_bob))))
    by (vm_compute; auto).
  split; [exact H|]. split; [reflexivity|]. split.
  - exact (proj1 C3_sends_inside_the_lock (lit "hi") (Some 1%nat) two_clients
             (Sent 2%nat [104; 105] true) H eq_refl).
  - split; [exact G|].
    exact (proj2 C3_sends_inside_the_lock (AwaitData (lit "bob")) 2%nat
             [Chunk (lit "hi")] after_bob _ G eq_refl).
Defined.

(** ** C4: broadcast isolation *)

(** C4: whatever sockets are broken, a [broadcast] that finds the lock free
    returns normally, leaves the registry and the lock as they were, and has
    written the encoded message to every registered recipient that is neither
    excluded nor broken. *)
Theorem C4_broadcast_isolation
    (m : str) (x : option sock) (w : World) (data : bytes) (c : sock) :
  lock w = false ->
  encode m = Some data ->
  In c (Dict.keys (clients w)) ->
  is_excluded c x = false ->
  is_broken c w = false ->
  exists w',
    broadcast m x w = Returned tt w'
    /\ In (Sent c data true) (new_events w w')
    /\ clients w' = clients w
    /\ lock w' = false.
Proof.
  intros Hl He Hc Hx Hb; rewrite broadcast_free by assumption.
  eexists; split; [reflexivity|]. rewrite new_events_add.
  repeat split; auto.
  right; unfold fan_events; apply in_flat_map; exists c; split; auto.
  rewrite (attempt_live _ _ _ _ data); auto. now left.
Qed.

Lemma C4_broadcast_isolation_witness :
  lock bob_is_broken = false
  /\ encode (lit "hi") = Some [104; 105]
  /\ In 3%nat (Dict.keys (clients bob_is_broken))
  /\ is_excluded 3%nat (Some 1%nat) = false
  /\ is_broken 3%nat bob_is_broken = false
  /\ is_broken 2%nat bob_is_broken = true
  /\ exists w',
       broadcast (lit "hi") (Some 1%nat) bob_is_broken = Returned tt w'
       /\ In (Sent 3%nat [104; 105] true) (new_events bob_is_broken w')
       /\ clients w' = clients bob_is_broken
       /\ lock w' = false.
Proof.
  assert (H : In 3%nat (Dict.keys (clients bob_is_broken)))
    by (vm_compute; auto).
  do 6 (split; [first [reflexivity|exact H]|]).
  exact (C4_broadcast_isolation (lit "hi") (Some 1%nat) bob_is_broken
           [104; 105] 3%nat eq_refl eq_refl H eq_refl eq_refl).
Defined.

(** ** C5: a failed send *)

(** C5, as stated, fails: a failed send does not lead to the recipient being
    unregistered, nor to a LEAVE notice.  With bob's socket broken, the relay
    of "hi" fails for bob; [broadcast] returns normally with bob still
    registered, and the only call of [broadcast] in the trace is the relay
    itself. *)
Lemma C5_counterexample :
  ~ (forall m x w c,
        lock w = false ->
        let w' := world_of (broadcast m x w) in
        In (SendFailed c true) (new_events w w') ->
        Dict.mem c (clients w') = false
        \/ exists n, In (leave_msg n, None) (calls (new_events w w'))).
Proof.
  intros H.
  specialize (H (lit "hi") (Some 1%nat) bob_is_broken 2%nat eq_refl).
  assert (E : broadcast (lit "hi") (Some 1%nat) bob_is_broken
              = Returned tt
                  (add_events [Called (lit "hi") (Some 1%nat);
                               SendFailed 2%nat true;
                               Sent 3%nat [104; 105] true] bob_is_broken))
    by (vm_compute; reflexivity).
  cbn zeta in H; rewrite E in H; cbn [world_of] in H.
  rewrite new_events_add in H.
  destruct H as [H|[n [H|[]]]]; [cbn; auto|discriminate H|].
  injection H as H _; apply (f_equal (@List.length Z)) in H.
  unfold leave_msg in H; rewrite length_app in H; cbn in H; lia.
Qed.

(** C5, amended: a send that fails during a [broadcast] is swallowed and has
    no further effect.  The call returns normally, the failed recipient stays
    in the registry under its name, and no other [broadcast] (so no LEAVE
    notice) is issued. *)
Theorem C5_failed_send_is_ignored
    (m : str) (x : option sock) (w : World) (data : bytes) (c : sock) :
  lock w = false ->
  encode m = Some data ->
  In c (Dict.keys (clients w)) ->
  is_excluded c x = false ->
  is_broken c w = true ->
  exists w',
    broadcast m x w = Returned tt w'
    /\ In (SendFailed c true) (new_events w w')
    /\ clients w' = clients w
    /\ calls (new_events w w') = [(m, x)].
Proof.
  intros Hl He Hc Hx Hb; rewrite broadcast_free by assumption.
  eexists; split; [reflexivity|]. rewrite new_events_add.
  repeat split.
  - right; unfold fan_events; apply in_flat_map; exists c; split; auto.
    rewrite (attempt_broken _ _ _ _ data); auto. now left.
  - cbn [calls]. now rewrite calls_fan_events.
Qed.

Lemma C5_failed_send_is_ignored_witness :
  lock bob_is_broken = false
  /\ encode (lit "hi") = Some [104; 105]
  /\ In 2%nat (Dict.keys (clients bob_is_broken))
  /\ is_excluded 2%nat (Some 1%nat) = false
  /\ is_broken 2%nat bob_is_broken = true
  /\ exists w',
       broadcast (lit "hi") (Some 1%nat) bob_is_broken = Returned tt w'
       /\ In (SendFailed 2%nat true) (new_events bob_is_broken w')
       /\ clients w' = clients bob_is_broken
       /\ calls (new_events bob_is_broken w') = [(lit "hi", Some 1%nat)].
Proof.
  assert (H : In 2%nat (Dict.keys (clients bob_is_broken)))
    by (vm_compute; auto).
  do 5 (split; [first [reflexivity|exact H]|]).
  exact (C5_failed_send_is_ignored (lit "hi") (Some 1%nat) bob_is_broken
           [104; 105] 2%nat eq_refl eq_refl H eq_refl eq_refl).
Defined.

(** ** C6: registering a connection twice *)

(** C6, as stated, fails: registering socket 1, already present as alice,
    raises nothing; it returns normally and the entry now reads mallory. *)
Lemma C6_counterexample :
  ~ (forall w c name,
        Dict.mem c (clients w) = true ->
        exists e w', register c name w = Raised e w').
Proof.
  intros H.
  destruct (H two_clients 1%nat (lit "mallory") eq_refl) as (e & w' & E).
  vm_compute in E; discriminate E.
Qed.

(** C6, amended: registration is a plain dictionary assignment.  For a
    connection that is already present it never fails: it returns normally,
    the entry now carries the new name, the set and order of registered
    connections are unchanged, and so are all other entries. *)
Theorem C6_register_replaces (c : sock) (name : str) (w : World) :
  lock w = false ->
  Dict.mem c (clients w) = true ->
  exists w',
    register c name w = Returned tt w'
    /\ Dict.get c (clients w') = Some name
    /\ Dict.keys (clients w') = Dict.keys (clients w)
    /\ (forall c', c' <> c -> Dict.get c' (clients w') = Dict.get c' (clients w)).
Proof.
  intros Hl Hm; rewrite register_spec by assumption.
  eexists; split; [reflexivity|]. cbn [clients set_clients]. repeat split.
  - apply get_set_same.
  - now apply keys_set_mem.
  - intros c' Hne; now apply get_set_other.
Qed.

Lemma C6_register_replaces_witness :
  lock two_clients = false
  /\ Dict.mem 1%nat (clients two_clients) = true
  /\ exists w',
       register 1%nat (lit "mallory") two_clients = Returned tt w'
       /\ Dict.get 1%nat (clients w') = Some (lit "mallory")
       /\ Dict.keys (clients w') = Dict.keys (clients two_clients)
       /\ (forall c', c' <> 1%nat ->
             Dict.get c' (clients w') = Dict.get c' (clients two_clients)).
Proof.
  split; [reflexivity|]. split; [reflexivity|].
  exact (C6_register_replaces 1%nat (lit "mallory") two_clients
           eq_refl eq_refl).
Defined.

(** ** C7: no self-echo *)

(** C7: a [broadcast] that excludes [p] writes nothing to [p]; a session of
    [p] resumed at any of its [recv] calls (so all its JOIN and DATA
    broadcasts) writes nothing to [p]; and in a whole session of [p] the only
    thing ever written to [p] is the greeting. *)
Theorem C7_no_self_echo :
  (forall m p w,
      sent_to p (new_events w (world_of (broadcast m (Some p) w))) = [])
  /\ (forall pt p input w,
        pt <> Accepted ->
        sent_to p (new_events w (world_of (run_from pt p input w))) = [])
  /\ (forall p input w data,
        In data (sent_to p (new_events w (world_of (_handle_client p input w)))) ->
        encode welcome_msg = Some data).
Proof.
  pose (others := fun (p : sock) (e : Event) =>
    match e with Sent c _ _ => c <> p | _ => True end).
  assert (Hnone : forall p evs, Forall (others p) evs -> sent_to p evs = []).
  { intros p evs F; apply sent_to_none; intros data lk Hin.
    rewrite Forall_forall in F. now apply F in Hin. }
  repeat split.
  - intros m p w; apply Hnone, grows_new.
    apply (emits_relay (others p) p); cbn; auto.
  - intros pt p input w Hpt; apply Hnone, grows_new.
    apply (emits_resumed (others p) p); cbn; auto.
  - intros p input w data Hin. apply in_sent_to in Hin. destruct Hin as [lk Hin].
    pose (Q := fun e => forall d k, e = Sent p d k -> encode welcome_msg = Some d).
    assert (G : emits Q (_handle_client p input)).
    { apply emits_run_from; unfold Q; try discriminate.
      - intros c' d Hne d' k [= -> _ _]; congruence.
      - intros d k He d' k' [= <- _]; exact He. }
    specialize (G w); apply grows_new in G.
    rewrite Forall_forall in G. exact (G _ Hin _ _ eq_refl).
Qed.

Lemma C7_no_self_echo_witness :
  AwaitData (lit "alice") <> Accepted
  /\ sent_to 1%nat
       (new_events after_bob
          (world_of (run_from (AwaitData (lit "alice")) 1%nat
                       [Chunk (lit "hi")] after_bob)))
     = []
  /\ In (lit "Welcome! Enter your username")
       (sent_to 3%nat
          (new_events after_bob
             (world_of (_handle_client 3%nat [Chunk (lit "carol")] after_bob))))
  /\ encode welcome_msg = Some (lit "Welcome! Enter your username").
Proof.
  assert (H : AwaitData (lit "alice") <> Accepted) by discriminate.
  assert (G : In (lit "Welcome! Enter your username")
                (sent_to 3%nat
                   (new_events after_bob
                      (world_of (_handle_client 3%nat [Chunk (lit "carol")]
                                   after_bob)))))
    by (vm_compute; auto).
  split; [exact H|]. split.
  - exact (proj1 (proj2 C7_no_self_echo) (AwaitData (lit "alice")) 1%nat
             [Chunk (lit "hi")] after_bob H).
  - split; [exact G|].
    exact (proj2 (proj2 C7_no_self_echo) 3%nat [Chunk (lit "carol")]
             after_bob _ G).
Defined.

(** ** C8: the payloads *)



(** ** C9: an error before registration *)



(** ** C10: the display name *)

(** C10: the handshake checks nothing about the name.  Whatever the first
    chunk decodes to, the handshake returns that text without the white space
    at its two ends, stores it in the registry for the connection, and calls
    [broadcast] once, with the name followed by " joined the chat" and the
    connection excluded; the notice can always be encoded and is written to
    every other registered socket that is not broken.  The name is what
    [str.strip] gives: the text is the name with a run of white space before
    and after it, and the name has no white space at either end (which fixes
    the name, [strip_unique]); nothing else is asked of it, so the empty name
    is registered like any other. *)
Theorem C10_name_not_validated (c : sock) (d : bytes) (s : str) (w : World) :
  lock w = false ->
  decode d = Some s ->
  exists w' data lead trail,
    handshake c (Chunk d) w = Returned (strip s) w'
    /\ Dict.get c (clients w') = Some (strip s)
    /\ calls (new_events w w') = [(strip s ++ lit " joined the chat", Some c)]
    /\ encode (strip s ++ lit " joined the chat") = Some data
    /\ (forall c',
          In c' (Dict.keys (clients w)) -> c' <> c -> is_broken c' w = false ->
          In (Sent c' data true) (new_events w w'))
    /\ s = lead ++ strip s ++ trail
    /\ forallb isspace lead = true
    /\ forallb isspace trail = true
    /\ (forall a t, strip s = a :: t -> isspace a = false)
    /\ (forall a t, strip s = t ++ [a] -> isspace a = false).
Proof.
  intros Hl Hd; rewrite (handshake_spec _ _ s) by assumption.
  destruct (join_msg_encodes d s Hd) as [data He].
  destruct (strip_split s) as (lead & trail & Es & Hlead & Htrail).
  eexists; exists data, lead, trail; split; [reflexivity|].
  erewrite new_events_app by (cbn; reflexivity).
  change (strip s ++ lit " joined the chat") with (join_msg (strip s)).
  split; [cbn; apply get_set_same|].
  split; [unfold broadcast_events; cbn [calls]; now rewrite calls_fan_events|].
  split; [exact He|].
  split.
  { intros c' Hin Hne Hb. right.
    unfold fan_events; apply in_flat_map; exists c'; split.
    - cbn [clients set_clients]; now apply keys_set_incl.
    - rewrite (attempt_live _ _ _ _ data); auto; [now left|].
      cbn; unfold sock_eqb; now apply Nat.eqb_neq. }
  split; [exact Es|]. split; [exact Hlead|]. split; [exact Htrail|].
  split; intros a t; [apply strip_leading|apply strip_trailing].
Qed.

(** Two first payloads in a registry with alice and bob: tab, spaces and a
    line feed around "bob" register the name "bob" a second time, and the
    notice is "bob joined the chat"; the empty payload (also what [recv]
    gives at end of stream) registers the empty name, and the notice is
    " joined the chat". *)
Lemma C10_name_not_validated_witness :
  (lock two_clients = false
   /\ decode [32; 9; 98; 111; 98; 32; 10] = Some [32; 9; 98; 111; 98; 32; 10]
   /\ exists w' data lead trail,
        handshake 3%nat (Chunk [32; 9; 98; 111; 98; 32; 10]) two_clients
        = Returned [98; 111; 98] w'
        /\ Dict.get 3%nat (clients w') = Some [98; 111; 98]
        /\ calls (new_events two_clients w')
           = [([98; 111; 98; 32; 106; 111; 105; 110; 101; 100; 32; 116; 104;
                101; 32; 99; 104; 97; 116], Some 3%nat)]
        /\ encode [98; 111; 98; 32; 106; 111; 105; 110; 101; 100; 32; 116;
                   104; 101; 32; 99; 104; 97; 116] = Some data
        /\ (forall c',
              In c' (Dict.keys (clients two_clients)) -> c' <> 3%nat ->
              is_broken c' two_clients = false ->
              In (Sent c' data true) (new_events two_clients w'))
        /\ [32; 9; 98; 111; 98; 32; 10] = lead ++ [98; 111; 98] ++ trail
        /\ forallb isspace lead = true
        /\ forallb isspace trail = true
        /\ (forall a t, [98; 111; 98] = a :: t -> isspace a = false)
        /\ (forall a t, [98; 111; 98] = t ++ [a] -> isspace a = false))
  /\ (lock two_clients = false
      /\ decode [] = Some []
      /\ exists w' data lead trail,
           handshake 3%nat (Chunk []) two_clients = Returned [] w'
           /\ Dict.get 3%nat (clients w') = Some []
           /\ calls (new_events two_clients w')
              = [([32; 106; 111; 105; 110; 101; 100; 32; 116; 104; 101; 32;
                   99; 104; 97; 116], Some 3%nat)]
           /\ encode [32; 106; 111; 105; 110; 101; 100; 32; 116; 104; 101;
                      32; 99; 104; 97; 116] = Some data
           /\ (forall c',
                 In c' (Dict.keys (clients two_clients)) -> c' <> 3%nat ->
                 is_broken c' two_clients = false ->
                 In (Sent c' data true) (new_events two_clients w'))
           /\ [] = lead ++ [] ++ trail
           /\ forallb isspace lead = true
           /\ forallb isspace trail = true
           /\ (forall a t, [] = a :: t -> isspace a = false)
           /\ (forall a t, [] = t ++ [a] -> isspace a = false)).
Proof.
  split.
  - split; [reflexivity|]. split; [reflexivity|].
    exact (C10_name_not_validated 3%nat [32; 9; 98; 111; 98; 32; 10]
             [32; 9; 98; 111; 98; 32; 10] two_clients eq_refl eq_refl).
  - split; [reflexivity|]. split; [reflexivity|].
    exact (C10_name_not_validated 3%nat [] [] two_clients eq_refl eq_refl).
Defined.

(** * Further properties *)

Import Lifecycle.

(** ** Shutdown *)

Lemma close_all_spec targets w :
  close_all targets w
  = Returned tt
      (mkWorld (clients w) (lock w) (rev targets ++ broken w)
               (trace w ++ map Closed targets)).
Proof.
  revert w; induction targets as [|c rest IH]; intros w; cbn [close_all].
  - destruct w; cbn. now rewrite app_nil_r.
  - unfold bind, try_except, close. rewrite IH.
    unfold add_events, set_broken; cbn.
    now rewrite <- !app_assoc.
Qed.

Lemma shutdown_spec (server_socket : option sock) (w : World) :
  lock w = false ->
  shutdown server_socket w
  = Returned tt
      (mkWorld [] false
         (rev (Dict.keys (clients w) ++ option_list server_socket) ++ broken w)
         (trace w
          ++ map Closed (Dict.keys (clients w) ++ option_list server_socket))).
Proof.
  intros Hl. unfold shutdown, with_lock, bind at 1, bind at 1, acquire.
  rewrite Hl. unfold try_finally, bind at 1. rewrite close_all_spec.
  unfold clear, release, set_lock, set_clients; cbn [clients lock broken trace].
  destruct server_socket as [s|]; cbn [option_list].
  - unfold try_except, close, add_events, set_broken; cbn.
    now rewrite rev_app_distr, map_app, <- app_assoc.
  - cbn [ret]. now rewrite !app_nil_r.
Qed.

(** In a state with the lock free, [shutdown] returns normally: it has closed
    every registered socket, in registry order, and then the listening socket
    if there is one, and nothing else has happened on the wire; the registry
    is empty and the lock is free again. *)
Theorem shutdown_closes_everything (server_socket : option sock) (w : World) :
  lock w = false ->
  exists w',
    shutdown server_socket w = Returned tt w'
    /\ clients w' = []
    /\ lock w' = false
    /\ new_events w w'
       = map Closed (Dict.keys (clients w) ++ option_list server_socket)
    /\ (forall c, In c (Dict.keys (clients w)) -> is_broken c w' = true).
Proof.
  intros Hl; rewrite shutdown_spec by assumption.
  eexists; split; [reflexivity|]. split; [reflexivity|].
  split; [reflexivity|]. split.
  - now apply new_events_app.
  - intros c Hin; unfold is_broken; cbn [broken].
    apply existsb_exists; exists c; split.
    + apply in_or_app; left. rewrite <- in_rev.
      apply in_or_app; now left.
    + unfold sock_eqb; apply Nat.eqb_refl.
Qed.

Lemma shutdown_closes_everything_witness :
  lock two_clients = false
  /\ exists w',
       shutdown (Some 9%nat) two_clients = Returned tt w'
       /\ clients w' = []
       /\ lock w' = false
       /\ new_events two_clients w'
          = map Closed (Dict.keys (clients two_clients)
                        ++ option_list (Some 9%nat))
       /\ (forall c, In c (Dict.keys (clients two_clients)) ->
                     is_broken c w' = true).
Proof.
  split; [reflexivity|].
  exact (shutdown_closes_everything (Some 9%nat) two_clients eq_refl).
Defined.

Lemma shutdown_locked server_socket w :
  lock w = true -> shutdown server_socket w = Suspended OnLock w.
Proof.
  intros Hl; unfold shutdown, with_lock, bind, acquire; now rewrite Hl.
Qed.

(** After the connection of a registered session has reached end of stream,
    [shutdown] never returns: it waits for the lock that the stuck handler
    holds, and no socket is closed, neither by the handler (not even its own)
    nor by [shutdown]. *)
Theorem shutdown_hangs_after_disconnect
    (c : sock) (u n : str) (server_socket : option sock) (w : World) :
  lock w = false ->
  Dict.get c (clients w) = Some n ->
  let w1 := world_of (run_from (AwaitData u) c [Chunk []] w) in
  shutdown server_socket w1 = Suspended OnLock w1
  /\ closed (new_events w w1) = []
  /\ Dict.keys (clients w1) = Dict.keys (Dict.remove c (clients w)).
Proof.
  intros Hl Hg w1.
  assert (E : run_from (AwaitData u) c [Chunk []] w
              = Suspended OnLock
                  (add_events [Called (leave_msg n) None]
                     (set_lock true
                        (set_clients (Dict.remove c (clients w)) w)))).
  { rewrite run_listen_spec by assumption.
    cbn [stop relayed decode relay_events flat_map]; rewrite add_events_nil.
    now rewrite cleanup_spec, Hg by assumption. }
  subst w1; rewrite E; cbn [world_of]. split; [|split].
  - now apply shutdown_locked.
  - erewrite new_events_app by (cbn; reflexivity). reflexivity.
  - reflexivity.
Qed.

Lemma shutdown_hangs_after_disconnect_witness :
  lock two_clients = false
  /\ Dict.get 1%nat (clients two_clients) = Some (lit "alice")
  /\ shutdown (Some 9%nat)
       (world_of (run_from (AwaitData (lit "alice")) 1%nat [Chunk []]
                    two_clients))
     = Suspended OnLock
         (world_of (run_from (AwaitData (lit "alice")) 1%nat [Chunk []]
                      two_clients)).
Proof.
  split; [reflexivity|]. split; [reflexivity|].
  exact (proj1 (shutdown_hangs_after_disconnect 1%nat (lit "alice")
                  (lit "alice") (Some 9%nat) two_clients eq_refl eq_refl)).
Defined.

(** ** How a session ends *)

(** The end of a session whose socket is not in the registry: the handler
    returns, having closed the socket. *)
Lemma unregistered_end c u input w :
  lock w = false -> Dict.get c (clients w) = None -> stop input <> Starved ->
  run_from (AwaitData u) c input w
  = Returned tt
      (add_events [Closed c]
         (set_broken c (add_events (relay_events c u (relayed input) w) w))).
Proof.
  intros Hl Hg Hs; rewrite run_listen_spec by assumption.
  assert (E : cleanup c (add_events (relay_events c u (relayed input) w) w)
              = Returned tt
                  (add_events [Closed c]
                     (set_broken c
                        (add_events (relay_events c u (relayed input) w) w)))).
  { rewrite cleanup_spec by assumption.
    cbn [clients add_events]. now rewrite Hg. }
  destruct (stop input); auto; congruence.
Qed.

Lemma relay_events_nobody c u bodies w :
  clients w = [] ->
  forall c', sent_to c' (relay_events c u bodies w) = [].
Proof.
  intros Hc c'; unfold relay_events, broadcast_events, fan_events.
  rewrite Hc; cbn [Dict.keys map flat_map].
  induction bodies as [|b l IH]; cbn; auto.
Qed.

(** Once [shutdown] has run, the sessions that were open end without harm:
    whatever makes the receive loop of such a session stop, its handler
    returns normally with its socket closed, nothing is written to anyone,
    the registry stays empty and the lock is free. *)
Theorem session_after_shutdown
    (server_socket : option sock) (c : sock) (u : str) (input : list Recv)
    (w : World) :
  lock w = false ->
  stop input <> Starved ->
  let w1 := world_of (shutdown server_socket w) in
  exists w2,
    run_from (AwaitData u) c input w1 = Returned tt w2
    /\ clients w2 = []
    /\ lock w2 = false
    /\ (forall c', sent_to c' (new_events w1 w2) = [])
    /\ In c (closed (new_events w1 w2)).
Proof.
  intros Hl Hs w1.
  subst w1; rewrite shutdown_spec by assumption; cbn [world_of].
  set (w' := mkWorld [] false _ _).
  assert (Hc : clients w' = []) by reflexivity.
  rewrite unregistered_end by (auto; now rewrite Hc).
  eexists; split; [reflexivity|].
  erewrite new_events_app by (cbn; rewrite <- app_assoc; reflexivity).
  repeat split; auto.
  - intros c'. rewrite sent_to_app, relay_events_nobody by assumption.
    reflexivity.
  - assert (Hcl : forall a b, closed (a ++ b) = closed a ++ closed b).
    { induction a as [|e a IH]; intros b; cbn; auto.
      destruct e; cbn; now rewrite ?IH. }
    rewrite Hcl; apply in_or_app; right; now left.
Qed.

Lemma session_after_shutdown_witness :
  lock two_clients = false
  /\ stop [Chunk (lit "bye"); ConnError] <> Starved
  /\ exists w2,
       run_from (AwaitData (lit "alice")) 1%nat
         [Chunk (lit "bye"); ConnError]
         (world_of (shutdown (Some 9%nat) two_clients))
       = Returned tt w2
       /\ clients w2 = []
       /\ lock w2 = false
       /\ (forall c',
             sent_to c'
               (new_events (world_of (shutdown (Some 9%nat) two_clients)) w2)
             = [])
       /\ In 1%nat
            (closed
               (new_events (world_of (shutdown (Some 9%nat) two_clients)) w2)).
Proof.
  assert (H : stop [Chunk (lit "bye"); ConnError] <> Starved)
    by (vm_compute; discriminate).
  split; [reflexivity|]. split; [exact H|].
  exact (session_after_shutdown (Some 9%nat) 1%nat (lit "alice")
           [Chunk (lit "bye"); ConnError] two_clients eq_refl H).
Defined.

(** Whatever makes the receive loop stop makes it stop in the same way: a
    connection error and bytes that are not valid UTF-8 (such as a character
    cut in two by the buffer boundary) are handled exactly like the end of the
    stream, and what would have come after is never read. *)
Theorem every_ending_is_a_disconnect
    (c : sock) (u : str) (r : Recv) (rest : list Recv) (w : World) :
  ends_session r = true ->
  run_from (AwaitData u) c (r :: rest) w
  = run_from (AwaitData u) c [Chunk []] w.
Proof.
  intros He; unfold run_from, try_finally, try_except; cbn [body listen].
  unfold bind, recv, decode_utf8, ret, raise.
  destruct r as [d|]; cbn in He; cbn [decode is_empty]; auto.
  destruct (decode d) as [[|a s]|]; cbn [is_empty]; auto; discriminate.
Qed.

Lemma every_ending_is_a_disconnect_witness :
  ends_session (Chunk [195]) = true
  /\ run_from (AwaitData (lit "alice")) 1%nat
       [Chunk [195]; Chunk [169]] two_clients
     = run_from (AwaitData (lit "alice")) 1%nat [Chunk []] two_clients.
Proof.
  split; [reflexivity|].
  exact (every_ending_is_a_disconnect 1%nat (lit "alice") (Chunk [195])
           [Chunk [169]] two_clients eq_refl).
Defined.

(** ** Relaying *)

Lemma sent_to_attempt_other m x brk c c' :
  c' <> c -> sent_to c' (attempt m x brk c) = [].
Proof.
  intros Hne; unfold attempt.
  destruct (is_excluded c x); auto. destruct (encode m); auto.
  destruct (existsb _ brk); cbn; auto.
  unfold sock_eqb; destruct (Nat.eqb_spec c' c); [congruence|reflexivity].
Qed.

Lemma sent_to_fan_absent m x brk c' keys :
  ~ In c' keys -> sent_to c' (flat_map (attempt m x brk) keys) = [].
Proof.
  induction keys as [|c l IH]; cbn [flat_map]; auto.
  intros Hn; rewrite sent_to_app, IH, app_nil_r by (cbn in Hn; tauto).
  apply sent_to_attempt_other; cbn in Hn; intros ->; tauto.
Qed.

Lemma sent_to_fan_once m x brk c' keys data :
  NoDup keys -> In c' keys ->
  is_excluded c' x = false -> encode m = Some data ->
  existsb (sock_eqb c') brk = false ->
  sent_to c' (flat_map (attempt m x brk) keys) = [data].
Proof.
  intros Hnd Hin Hx He Hb; induction Hnd as [|c l Hnotin Hnd IH];
    [destruct Hin|].
  cbn [flat_map]; rewrite sent_to_app. destruct Hin as [->|Hin].
  - rewrite (attempt_live _ _ _ _ data), sent_to_fan_absent by assumption.
    cbn; unfold sock_eqb; now rewrite Nat.eqb_refl.
  - rewrite IH by assumption.
    rewrite sent_to_attempt_other; [reflexivity|]. now intros ->.
Qed.

Lemma sent_to_fan_excluded m c brk keys :
  sent_to c (flat_map (attempt m (Some c) brk) keys) = [].
Proof.
  induction keys as [|c0 l IH]; cbn [flat_map]; auto.
  rewrite sent_to_app, IH, app_nil_r. unfold attempt; cbn [is_excluded].
  unfold sock_eqb; destruct (Nat.eqb_spec c0 c) as [->|Hne]; auto.
  destruct (encode m); auto. destruct (existsb _ brk); cbn; auto.
  unfold sock_eqb; destruct (Nat.eqb_spec c c0); [congruence|reflexivity].
Qed.

(** One chunk of chat text, relayed: when the handler of [c], registered as
    [u], receives a chunk that decodes to a non-empty [body], it goes back to
    waiting in [recv], and every other registered socket that is not broken
    has been written exactly one payload, the encoding of "u: body"; nothing
    is written to [c], and the registry and the lock are as before. *)
Theorem relay_reaches_everyone_else
    (c c' : sock) (u body : str) (d data : bytes) (w : World) :
  lock w = false ->
  decode d = Some body -> body <> [] ->
  encode (data_msg u body) = Some data ->
  NoDup (Dict.keys (clients w)) ->
  In c' (Dict.keys (clients w)) -> c' <> c -> is_broken c' w = false ->
  exists w',
    run_from (AwaitData u) c [Chunk d] w = Suspended (OnRecv (AwaitData u)) w'
    /\ clients w' = clients w
    /\ lock w' = false
    /\ sent_to c' (new_events w w') = [data]
    /\ sent_to c (new_events w w') = [].
Proof.
  intros Hl Hd Hb He Hnd Hin Hne Hbr.
  rewrite run_listen_spec by assumption. cbn [stop relayed]; rewrite Hd.
  destruct body as [|a s]; [congruence|]. cbn [stop].
  eexists; split; [reflexivity|]. rewrite new_events_add.
  unfold relay_events, broadcast_events, fan_events; cbn [flat_map].
  rewrite app_nil_r. cbn [sent_to]. repeat split; auto.
  - apply sent_to_fan_once; auto.
    cbn; unfold sock_eqb; now apply Nat.eqb_neq.
  - apply sent_to_fan_excluded.
Qed.

Lemma relay_reaches_everyone_else_witness :
  lock bob_is_broken = false
  /\ decode (lit "hi") = Some (lit "hi") /\ lit "hi" <> []
  /\ encode (data_msg (lit "alice") (lit "hi")) = Some (lit "alice: hi")
  /\ NoDup (Dict.keys (clients bob_is_broken))
  /\ In 3%nat (Dict.keys (clients bob_is_broken))
  /\ 3%nat <> 1%nat
  /\ is_broken 3%nat bob_is_broken = false
  /\ exists w',
       run_from (AwaitData (lit "alice")) 1%nat [Chunk (lit "hi")]
         bob_is_broken
       = Suspended (OnRecv (AwaitData (lit "alice"))) w'
       /\ clients w' = clients bob_is_broken
       /\ lock w' = false
       /\ sent_to 3%nat (new_events bob_is_broken w') = [lit "alice: hi"]
       /\ sent_to 1%nat (new_events bob_is_broken w') = [].
Proof.
  assert (H1 : lit "hi" <> []) by discriminate.
  assert (H2 : NoDup (Dict.keys (clients bob_is_broken))).
  { cbn; repeat constructor; cbn; intuition discriminate. }
  assert (H3 : In 3%nat (Dict.keys (clients bob_is_broken)))
    by (cbn; auto).
  assert (H4 : 3%nat <> 1%nat) by discriminate.
  split; [reflexivity|]. split; [reflexivity|]. split; [exact H1|].
  split; [reflexivity|]. split; [exact H2|]. split; [exact H3|].
  split; [exact H4|]. split; [reflexivity|].
  exact (relay_reaches_everyone_else 1%nat 3%nat (lit "alice") (lit "hi")
           (lit "hi") (lit "alice: hi") bob_is_broken
           eq_refl eq_refl H1 eq_refl H2 H3 H4 eq_refl).
Defined.

(** ** What a session does to the registry *)

Section MoreDictFacts.
Context {V : Type}.
Implicit Types (d : Dict.dict V) (k : nat) (v : V).

Lemma get_remove_other k k' d :
  k' <> k -> Dict.get k' (Dict.remove k d) = Dict.get k' d.
Proof.
  intros Hne; unfold Dict.remove; induction d as [|[k0 v0] d IH]; cbn; auto.
  destruct (Nat.eqb_spec k k0) as [->|H0]; cbn.
  - destruct (Nat.eqb_spec k' k0); [congruence|exact IH].
  - now rewrite IH.
Qed.

End MoreDictFacts.

Section Keeps.
Variable R : World -> World -> Prop.
Hypothesis R_refl : forall w, R w w.
Hypothesis R_trans : forall w1 w2 w3, R w1 w2 -> R w2 w3 -> R w1 w3.
Hypothesis R_lock : forall b w, R w (set_lock b w).
Hypothesis R_events : forall evs w, R w (add_events evs w).
Hypothesis R_broken : forall c w, R w (set_broken c w).

Lemma keeps_ret {A} (a : A) : keeps R (ret a).
Proof. intros w; apply R_refl. Qed.

Lemma keeps_raise {A} e : keeps R (@raise A e).
Proof. intros w; apply R_refl. Qed.

Lemma keeps_suspend {A} p : keeps R (@suspend A p).
Proof. intros w; apply R_refl. Qed.

Lemma keeps_bind {A B} (m : M A) (k : A -> M B) :
  keeps R m -> (forall a, keeps R (k a)) -> keeps R (bind m k).
Proof.
  intros Hm Hk w; unfold bind; specialize (Hm w).
  destruct (m w) as [a w1|e w1|p w1]; cbn in *; auto.
  eapply R_trans; [exact Hm|apply Hk].
Qed.

Lemma keeps_try_except {A} (m : M A) (h : Exn -> M A) :
  keeps R m -> (forall e, keeps R (h e)) -> keeps R (try_except m h).
Proof.
  intros Hm Hh w; unfold try_except; specialize (Hm w).
  destruct (m w) as [a w1|e w1|p w1]; cbn in *; auto.
  eapply R_trans; [exact Hm|apply Hh].
Qed.

Lemma keeps_try_finally {A} (m : M A) (f : M unit) :
  keeps R m -> keeps R f -> keeps R (try_finally m f).
Proof.
  intros Hm Hf w; unfold try_finally; specialize (Hm w).
  destruct (m w) as [a w1|e w1|p w1]; cbn in *; auto;
    specialize (Hf w1); destruct (f w1); cbn in *;
    eapply R_trans; eauto.
Qed.

Lemma keeps_with_lock {A} (m : M A) : keeps R m -> keeps R (with_lock m).
Proof.
  intros Hm; unfold with_lock; apply keeps_bind.
  - intros w; unfold acquire; destruct (lock w); cbn; auto.
  - intros _; apply keeps_try_finally; auto.
    intros w; cbn; auto.
Qed.

Lemma keeps_send c data : keeps R (send c data).
Proof. intros w; unfold send; destruct (is_broken c w); cbn; auto. Qed.

Lemma keeps_close c : keeps R (close c).
Proof.
  intros w; unfold close; cbn [world_of].
  eapply R_trans; [apply R_broken|apply R_events].
Qed.

Lemma keeps_fan_out m x targets : keeps R (fan_out m x targets).
Proof.
  induction targets as [|c rest IH]; cbn [fan_out]; [apply keeps_ret|].
  apply keeps_bind; [|auto].
  destruct (is_excluded c x); [apply keeps_ret|].
  apply keeps_try_except; [|intros _; apply keeps_ret].
  apply keeps_bind; [|intros d; apply keeps_send].
  unfold encode_utf8; destruct (PyStr.encode m);
    [apply keeps_ret|apply keeps_raise].
Qed.

Lemma keeps_broadcast m x : keeps R (broadcast m x).
Proof.
  unfold broadcast; apply keeps_bind; [intros w; cbn; auto|intros _].
  apply keeps_with_lock; intros w; apply keeps_fan_out.
Qed.

Lemma keeps_recv r : keeps R (recv r).
Proof. destruct r; [apply keeps_ret|apply keeps_raise]. Qed.

Lemma keeps_decode_utf8 d : keeps R (decode_utf8 d).
Proof.
  unfold decode_utf8; destruct (PyStr.decode d);
    [apply keeps_ret|apply keeps_raise].
Qed.

Lemma keeps_listen c u input : keeps R (listen c u input).
Proof.
  induction input as [|r rest IH]; cbn [listen]; [apply keeps_suspend|].
  apply keeps_bind; [apply keeps_recv|intros raw].
  apply keeps_bind; [apply keeps_decode_utf8|intros s].
  destruct (PyStr.is_empty s); [apply keeps_ret|].
  apply keeps_bind; [apply keeps_broadcast|auto].
Qed.

Lemma keeps_greet c : keeps R (greet c).
Proof.
  unfold greet; apply keeps_bind; [|intros d; apply keeps_send].
  unfold encode_utf8; destruct (PyStr.encode welcome_msg);
    [apply keeps_ret|apply keeps_raise].
Qed.

Variable c : sock.
Hypothesis R_set :
  forall n w, R w (set_clients (Dict.set c n (clients w)) w).
Hypothesis R_remove :
  forall w, R w (set_clients (Dict.remove c (clients w)) w).

Lemma keeps_enter input : keeps R (enter c input).
Proof.
  destruct input as [|r rest]; cbn [enter]; [apply keeps_suspend|].
  apply keeps_bind; [|intros u; apply keeps_listen].
  unfold handshake.
  apply keeps_bind; [apply keeps_recv|intros raw].
  apply keeps_bind; [apply keeps_decode_utf8|intros s].
  apply keeps_bind.
  { apply keeps_with_lock; intros w; cbn; auto. }
  intros _; apply keeps_bind; [apply keeps_broadcast|intros _; apply keeps_ret].
Qed.

Lemma keeps_cleanup : keeps R (cleanup c).
Proof.
  unfold cleanup; apply keeps_bind.
  - apply keeps_with_lock; intros w.
    destruct (Dict.mem c (clients w)); [|apply R_refl].
    apply keeps_bind; [|intros n; apply keeps_broadcast].
    intros w0; unfold pop; destruct (Dict.get c (clients w0)); cbn; auto.
  - intros _; apply keeps_try_except; [apply keeps_close|].
    intros _; apply keeps_ret.
Qed.

Lemma keeps_run_from p input : keeps R (run_from p c input).
Proof.
  unfold run_from.
  apply keeps_try_finally; [|apply keeps_cleanup].
  apply keeps_try_except; [|intros _; apply keeps_ret].
  destruct p; cbn [body].
  - apply keeps_bind; [apply keeps_greet|intros _; apply keeps_enter].
  - apply keeps_enter.
  - apply keeps_listen.
Qed.

End Keeps.

(** A session changes no entry of the registry but its own: the names of all
    other connections are, after any run of the handler of [c], what they were
    before. *)
Theorem session_touches_only_its_entry
    (p : Point) (c c' : sock) (input : list Recv) (w : World) :
  c' <> c ->
  Dict.get c' (clients (world_of (run_from p c input w)))
  = Dict.get c' (clients w).
Proof.
  intros Hne; revert w.
  apply (keeps_run_from
           (fun w w' => Dict.get c' (clients w') = Dict.get c' (clients w)));
    auto.
  - intros w1 w2 w3 H12 H23; congruence.
  - intros n w; cbn; now apply get_set_other.
  - intros w; cbn; now apply get_remove_other.
Qed.

Lemma session_touches_only_its_entry_witness :
  2%nat <> 1%nat
  /\ Dict.get 2%nat
       (clients (world_of (run_from (AwaitData (lit "alice")) 1%nat
                             [Chunk (lit "hi"); Chunk []] two_clients)))
     = Dict.get 2%nat (clients two_clients).
Proof.
  assert (H : 2%nat <> 1%nat) by discriminate.
  split; [exact H|].
  exact (session_touches_only_its_entry (AwaitData (lit "alice")) 1%nat 2%nat
           [Chunk (lit "hi"); Chunk []] two_clients H).
Defined.

(** A session closes no socket but its own, wherever it starts and however
    it runs. *)
Theorem session_closes_only_its_socket
    (p : Point) (c c' : sock) (input : list Recv) (w : World) :
  In c' (closed (new_events w (world_of (run_from p c input w)))) -> c' = c.
Proof.
  pose (Q := fun e => forall x, e = Closed x -> x = c).
  assert (G : emits Q (run_from p c input)).
  { apply emits_run_from; unfold Q; try discriminate.
    now intros x [= <-]. }
  specialize (G w); apply grows_new in G.
  induction G as [|e evs He _ IH]; cbn; [tauto|].
  destruct e; auto. intros [<-|Hin]; auto.
Qed.

Lemma session_closes_only_its_socket_witness :
  In 3%nat
     (closed (new_events two_clients
                (world_of (_handle_client 3%nat [ConnError] two_clients))))
  /\ 3%nat = 3%nat.
Proof.
  assert (H : In 3%nat
                (closed (new_events two_clients
                           (world_of (_handle_client 3%nat [ConnError]
                                        two_clients)))))
    by (vm_compute; auto).
  split; [exact H|].
  exact (session_closes_only_its_socket Accepted 3%nat 3%nat [ConnError]
           two_clients H).
Defined.

(** ** The lock *)





Lemma calm_try_except {A} (m : M A) (h : Exn -> M A) :
  calm m -> (forall e, calm (h e)) -> calm (try_except m h).
Proof.
  intros Hm Hh w Hl; unfold try_except; destruct (Hm w Hl) as [H1 H2].
  destruct (m w) as [a w1|e w1|p w1]; cbn in *.
  - split; [auto|discriminate].
  - now apply Hh.
  - split; [auto|]. intros w' E; apply (H2 w'). exact E.
Qed.












(** ** The registered name *)

(** The name that the handshake stores is the text of the first payload
    without the white space at its two ends: the text is the name with a run
    of white space before and after it, the name has no white space at either
    end, and stripping it again changes nothing.  So two first payloads whose
    texts differ only in white space around them are registered as the same
    name, on whatever connections and in whatever states with the lock free
    they arrive. *)
Theorem registered_name_is_trimmed
    (c c' : sock) (d d' : bytes) (s a b : str) (w w' : World) :
  lock w = false -> lock w' = false ->
  decode d = Some s ->
  decode d' = Some (a ++ s ++ b) ->
  forallb isspace a = true -> forallb isspace b = true ->
  Dict.get c (clients (world_of (handshake c (Chunk d) w))) = Some (strip s)
  /\ Dict.get c' (clients (world_of (handshake c' (Chunk d') w')))
     = Some (strip s)
  /\ (exists lead trail,
        s = lead ++ strip s ++ trail
        /\ forallb isspace lead = true /\ forallb isspace trail = true)
  /\ (forall x t, strip s = x :: t -> isspace x = false)
  /\ (forall x t, strip s = t ++ [x] -> isspace x = false)
  /\ strip (strip s) = strip s.
Proof.
  intros Hl Hl' Hd Hd' Ha Hb.
  rewrite (handshake_spec c d s) by assumption.
  rewrite (handshake_spec c' d' (a ++ s ++ b)) by assumption.
  cbn [world_of clients add_events set_clients].
  rewrite !get_set_same, strip_pad by assumption.
  split; [reflexivity|]. split; [reflexivity|].
  split; [apply strip_split|].
  split; [intros x t; apply strip_leading|].
  split; [intros x t; apply strip_trailing|apply strip_fixed].
Qed.

(** "bob" sent bare on one connection, and between a space, a tab, a space
    and a line feed on another: both are registered as "bob". *)
Lemma registered_name_is_trimmed_witness :
  lock two_clients = false /\ lock idle = false
  /\ decode [98; 111; 98] = Some [98; 111; 98]
  /\ decode [32; 9; 98; 111; 98; 32; 10]
     = Some ([32; 9] ++ [98; 111; 98] ++ [32; 10])
  /\ forallb isspace [32; 9] = true /\ forallb isspace [32; 10] = true
  /\ Dict.get 3%nat
       (clients (world_of (handshake 3%nat (Chunk [98; 111; 98])
                             two_clients))) = Some [98; 111; 98]
  /\ Dict.get 1%nat
       (clients (world_of (handshake 1%nat
                             (Chunk [32; 9; 98; 111; 98; 32; 10])
                             idle))) = Some [98; 111; 98]
  /\ (exists lead trail,
        [98; 111; 98] = lead ++ [98; 111; 98] ++ trail
        /\ forallb isspace lead = true /\ forallb isspace trail = true)
  /\ (forall x t, [98; 111; 98] = x :: t -> isspace x = false)
  /\ (forall x t, [98; 111; 98] = t ++ [x] -> isspace x = false)
  /\ strip [98; 111; 98] = [98; 111; 98].
Proof.
  do 6 (split; [reflexivity|]).
  exact (registered_name_is_trimmed 3%nat 1%nat [98; 111; 98]
           [32; 9; 98; 111; 98; 32; 10] [98; 111; 98] [32; 9] [32; 10]
           two_clients idle eq_refl eq_refl eq_refl eq_refl eq_refl eq_refl).
Defined.

(** * The clients *)

Import Text.

(** ** Substrings *)

Lemma startswith_skipn sep s :
  startswith sep s = true -> s = sep ++ skipn (List.length sep) s.
Proof.
  revert s; induction sep as [|p ps IH]; intros s; cbn; auto.
  destruct s as [|a t]; [discriminate|].
  intros H; apply andb_true_iff in H; destruct H as [E H].
  apply Z.eqb_eq in E; subst a. f_equal; now apply IH.
Qed.

Lemma startswith_app sep u v :
  startswith sep u = true -> startswith sep (u ++ v) = true.
Proof.
  revert u; induction sep as [|p ps IH]; intros u; cbn; auto.
  destruct u as [|a t]; [discriminate|]. cbn.
  intros H; apply andb_true_iff in H; destruct H as [E H].
  rewrite E; cbn; now apply IH.
Qed.

Lemma contains_cons sep a t :
  contains sep (a :: t) = startswith sep (a :: t) || contains sep t.
Proof. reflexivity. Qed.

(** Where [sep] occurs, [split1] cuts at its first occurrence and loses
    nothing. *)
Lemma split1_contains sep s :
  sep <> [] -> contains sep s = true ->
  exists before after,
    split1 sep s = [before; after]
    /\ s = before ++ sep ++ after
    /\ contains sep before = false.
Proof.
  intros Hsep; induction s as [|a t IH].
  - destruct sep; [congruence|discriminate].
  - rewrite contains_cons. cbn [split1].
    destruct (startswith sep (a :: t)) eqn:Hs.
    + intros _; exists [], (skipn (List.length sep) (a :: t)).
      split; [reflexivity|]. split; [now apply startswith_skipn|].
      destruct sep; [congruence|reflexivity].
    + cbn [orb]; intros Hc. destruct (IH Hc) as (b & af & E & Ht & Hb).
      exists (a :: b), af; rewrite E. split; [reflexivity|].
      split; [now rewrite Ht|].
      rewrite contains_cons, Hb, orb_false_r.
      destruct (startswith sep (a :: b)) eqn:Hab; auto.
      apply (startswith_app _ _ (sep ++ af)) in Hab.
      rewrite Ht in Hs. cbn [app] in Hab. congruence.
Qed.

Lemma split1_absent sep s : contains sep s = false -> split1 sep s = [s].
Proof.
  induction s as [|a t IH].
  - cbn. destruct (startswith sep []); [discriminate|reflexivity].
  - rewrite contains_cons; cbn [split1]; intros H.
    apply orb_false_iff in H; destruct H as [-> Ht]. now rewrite IH.
Qed.

(** ** The graphical client *)

(** Splitting an incoming message never fails and loses nothing.  A message
    with ": " in it is cut at the first ": " into a sender and a body; a
    message without is shown whole, with an empty sender. *)
Theorem on_message_is_lossless (message : str) :
  exists sender body,
    Gui.on_message message = Some (sender, body)
    /\ ((contains (lit ": ") message = true
         /\ message = sender ++ lit ": " ++ body
         /\ contains (lit ": ") sender = false)
        \/ (contains (lit ": ") message = false
            /\ sender = [] /\ body = message)).
Proof.
  unfold Gui.on_message.
  destruct (contains (lit ": ") message) eqn:Hc.
  - destruct (split1_contains (lit ": ") message) as (b & a & E & Hm & Hb);
      [discriminate|assumption|].
    exists b, a; rewrite E; auto.
  - exists [], message; auto.
Qed.

Lemma split1_data_msg u body :
  contains (lit ": ") u = false ->
  contains (lit ": ") (data_msg u body) = true
  /\ split1 (lit ": ") (data_msg u body) = [u; body].
Proof.
  unfold data_msg; induction u as [|a u IH]; intros Hc.
  - split; reflexivity.
  - rewrite contains_cons in Hc. apply orb_false_iff in Hc.
    destruct Hc as [Hs Hc]. destruct (IH Hc) as [IH1 IH2].
    assert (Hs' : startswith (lit ": ") ((a :: u) ++ lit ": " ++ body) = false).
    { change (lit ": ") with [58; 32] in *.
      cbn [startswith app] in Hs |- *.
      destruct (58 =? a); cbn [andb] in *; auto.
      destruct u as [|b u']; cbn [app]; [reflexivity|exact Hs]. }
    split.
    + cbn [app]; rewrite contains_cons. cbn [app] in Hs'.
      rewrite Hs'; exact IH1.
    + cbn [app split1]. cbn [app] in Hs'. rewrite Hs', IH2. reflexivity.
Qed.

(** What the server relays comes apart again in the graphical client: a
    message built by the server as "name: body" is split into that name and
    that body, provided the name itself has no ": " in it. *)
Theorem relayed_message_is_split_back (u body : str) :
  contains (lit ": ") u = false ->
  Gui.on_message (data_msg u body) = Some (u, body).
Proof.
  intros Hc; unfold Gui.on_message.
  destruct (split1_data_msg u body Hc) as [-> ->]. reflexivity.
Qed.

Lemma relayed_message_is_split_back_witness :
  contains (lit ": ") (lit "alice") = false
  /\ Gui.on_message (data_msg (lit "alice") (lit "see: here"))
     = Some (lit "alice", lit "see: here").
Proof.
  split; [reflexivity|].
  exact (relayed_message_is_split_back (lit "alice") (lit "see: here")
           eq_refl).
Defined.

Lemma contains_colon_app u v :
  contains (lit ":") (u ++ v) = contains (lit ":") u || contains (lit ":") v.
Proof.
  induction u as [|a u IH]; cbn [app].
  - destruct v; reflexivity.
  - rewrite !contains_cons, IH.
    change (lit ":") with [58]. cbn [startswith].
    now rewrite andb_true_r, orb_assoc.
Qed.

Lemma no_colon_no_sep s :
  contains (lit ":") s = false -> contains (lit ": ") s = false.
Proof.
  induction s as [|a t IH]; [reflexivity|].
  rewrite !contains_cons. change (lit ":") with [58].
  change (lit ": ") with [58; 32]. cbn [startswith].
  rewrite andb_true_r. intros H; apply orb_false_iff in H.
  destruct H as [-> Ht]. cbn. now apply IH.
Qed.

(** The JOIN and LEAVE notices of a name [u] without a colon are shown whole,
    with no sender.  Names are not checked, though: for the name made of such
    a [u] and one colon after it, the JOIN notice is taken for a message from
    [u] saying "joined the chat". *)
Theorem notices_in_the_gui (u : str) :
  contains (lit ":") u = false ->
  Gui.on_message (join_msg u) = Some ([], join_msg u)
  /\ Gui.on_message (leave_msg u) = Some ([], leave_msg u)
  /\ Gui.on_message (join_msg (u ++ lit ":"))
     = Some (u, lit "joined the chat").
Proof.
  intros Hc. split; [|split].
  - unfold Gui.on_message, join_msg.
    rewrite no_colon_no_sep; [reflexivity|].
    rewrite contains_colon_app, Hc; reflexivity.
  - unfold Gui.on_message, leave_msg.
    rewrite no_colon_no_sep; [reflexivity|].
    rewrite contains_colon_app, Hc; reflexivity.
  - unfold join_msg. rewrite <- app_assoc.
    change (lit ":" ++ lit " joined the chat")
      with (lit ": " ++ lit "joined the chat").
    unfold Gui.on_message.
    destruct (split1_data_msg u (lit "joined the chat")
                (no_colon_no_sep u Hc)) as [H1 H2].
    unfold data_msg in H1, H2. now rewrite H1, H2.
Qed.

Lemma notices_in_the_gui_witness :
  contains (lit ":") (lit "bob") = false
  /\ Gui.on_message (join_msg (lit "bob")) = Some ([], lit "bob joined the chat")
  /\ Gui.on_message (join_msg (lit "bob:")) = Some (lit "bob", lit "joined the chat").
Proof.
  pose proof (notices_in_the_gui (lit "bob") eq_refl) as T.
  split; [reflexivity|]. split; [exact (proj1 T)|exact (proj2 (proj2 T))].
Defined.

(** ** The line-mode client *)

Import Client.

Lemma outgoing_has_colon name user_input :
  contains (lit ":") (outgoing name user_input) = true.
Proof.
  unfold outgoing. destruct (contains (lit ":") user_input) eqn:H; auto.
  rewrite !contains_colon_app. apply orb_true_iff; right. reflexivity.
Qed.

Lemma send_message_wire m up st :
  username (snd (send_message m up st)) = username st
  /\ has_socket (snd (send_message m up st)) = has_socket st
  /\ (wire (snd (send_message m up st)) = wire st
      \/ exists data, encode m = Some data
                      /\ wire (snd (send_message m up st)) = wire st ++ [data]).
Proof.
  unfold send_message.
  destruct (negb (is_connected st) || negb (has_socket st));
    [cbn; repeat split; auto|].
  destruct (encode m) as [data|]; [|cbn; repeat split; auto].
  destruct up; cbn; repeat split; eauto.
Qed.

(** Whatever is typed, everything that the interactive loop hands to the
    socket is the encoding of a text with a colon in it, and the user name
    does not change. *)
Theorem interactive_lines_carry_a_colon
    (lower : str -> str) (typed : list Typed) (st : State) :
  exists payloads,
    wire (state_of (interact lower typed st)) = wire st ++ payloads
    /\ username (state_of (interact lower typed st)) = username st
    /\ Forall (fun data => exists m, encode m = Some data
                                  /\ contains (lit ":") m = true) payloads.
Proof.
  revert st; induction typed as [|t rest IH]; intros st.
  - exists []; cbn [interact]. destruct (negb (is_connected st)); cbn;
      rewrite app_nil_r; auto.
  - cbn [interact]. destruct (negb (is_connected st)).
    { exists []; cbn; rewrite app_nil_r; auto. }
    destruct t as [text up|]; [|exists []; cbn; rewrite app_nil_r; auto].
    cbv zeta. destruct (is_empty (strip text)); [apply IH|].
    destruct (str_eqb (lower (strip text)) (lit "exit")).
    { exists []; cbn; rewrite app_nil_r; auto. }
    set (m := outgoing (username st) (strip text)).
    destruct (IH (snd (send_message m up st))) as (ps & Hw & Hu & Hf).
    destruct (send_message_wire m up st) as (Eu & _ & [Ew|(data & He & Ew)]).
    + exists ps; rewrite Hw, Hu, Ew, Eu; auto.
    + exists (data :: ps); rewrite Hw, Hu, Ew, Eu, <- app_assoc.
      repeat split; auto. constructor; auto.
      exists m; split; auto. apply outgoing_has_colon.
Qed.

(** Once the interactive loop has ended (on "exit", on an exception of
    [input], or after a send that failed) the client is disconnected, and
    nothing typed later has any effect. *)
Theorem ended_loop_ignores_later_input
    (lower : str -> str) (typed later : list Typed) (st st' : State) :
  interact lower typed st = Ended st' ->
  interact lower (typed ++ later) st = Ended st'
  /\ is_connected st' = false.
Proof.
  revert st; induction typed as [|t rest IH]; intros st; cbn [interact app].
  - destruct (negb (is_connected st)) eqn:Hc; [|discriminate].
    intros [= <-]. split; [|reflexivity].
    destruct later; cbn [interact]; now rewrite Hc.
  - destruct (negb (is_connected st)); [intros [= <-]; auto|].
    destruct t as [text up|]; [|intros [= <-]; auto].
    cbv zeta. destruct (is_empty (strip text)); [apply IH|].
    destruct (str_eqb (lower (strip text)) (lit "exit"));
      [intros [= <-]; auto|apply IH].
Qed.

Lemma ended_loop_ignores_later_input_witness :
  interact ascii_lower [Line (lit "hello") true; Line (lit " EXIT ") true]
    (mkState (lit "alice") true true [])
  = Ended (mkState (lit "alice") false true [lit "alice:hello"])
  /\ interact ascii_lower
       ([Line (lit "hello") true; Line (lit " EXIT ") true]
        ++ [Line (lit "more") true])
       (mkState (lit "alice") true true [])
     = Ended (mkState (lit "alice") false true [lit "alice:hello"]).
Proof.
  assert (H : interact ascii_lower
                [Line (lit "hello") true; Line (lit " EXIT ") true]
                (mkState (lit "alice") true true [])
              = Ended (mkState (lit "alice") false true [lit "alice:hello"]))
    by reflexivity.
  split; [exact H|].
  exact (proj1 (ended_loop_ignores_later_input ascii_lower _
                  [Line (lit "more") true] _ _ H)).
Defined.

(** There is no reconnection: once [send_message] has returned [False], every
    later call returns [False] as well and sends nothing, even when the link
    is up again. *)
Theorem failed_send_is_final
    (m m' : str) (up up' : bool) (st : State) :
  fst (send_message m up st) = false ->
  send_message m' up' (snd (send_message m up st))
  = (false, snd (send_message m up st)).
Proof.
  unfold send_message at 1 3 4.
  destruct (negb (is_connected st) || negb (has_socket st)) eqn:Hc; cbn [fst snd].
  - intros _; unfold send_message; now rewrite Hc.
  - destruct (encode m) as [data|]; [destruct up; [discriminate|]|];
      intros _; reflexivity.
Qed.

Lemma failed_send_is_final_witness :
  fst (send_message (lit "a:b") false (mkState (lit "alice") true true []))
  = false
  /\ send_message (lit "a:c") true
       (snd (send_message (lit "a:b") false
               (mkState (lit "alice") true true [])))
     = (false,
        snd (send_message (lit "a:b") false
               (mkState (lit "alice") true true []))).
Proof.
  split; [reflexivity|].
  exact (failed_send_is_final (lit "a:b") (lit "a:c") false true
           (mkState (lit "alice") true true []) eq_refl).
Defined.

(** ** From one client to the other *)

(** A line typed without a colon in the line-mode client, sent over a link
    that is up, read by the server in one piece by the handler of a
    connection registered as [u], and read in one piece by the listener of a
    line-mode peer: the sender puts its own user name and a colon before the
    line, the server writes exactly one payload to the peer's socket (and none
    to the sender's), and the peer prints one message, the sender's name as
    the server has it, ": ", and what the sender sent, so that a sender name
    stands twice. *)
Theorem typed_line_reaches_peer
    (lower : str -> str) (text u : str) (st peer : State)
    (data payload : bytes) (c c' : sock) (w : World) :
  is_connected st = true -> has_socket st = true ->
  strip text <> [] ->
  str_eqb (lower (strip text)) (lit "exit") = false ->
  contains (lit ":") (strip text) = false ->
  encode (username st ++ lit ":" ++ strip text) = Some data ->
  encode (u ++ lit ": " ++ username st ++ lit ":" ++ strip text)
  = Some payload ->
  lock w = false ->
  NoDup (Dict.keys (clients w)) ->
  In c' (Dict.keys (clients w)) -> c' <> c -> is_broken c' w = false ->
  is_connected peer = true ->
  wire (state_of (interact lower [Line text true] st)) = wire st ++ [data]
  /\ (exists w',
        run_from (AwaitData u) c [Chunk data] w
        = Suspended (OnRecv (AwaitData u)) w'
        /\ sent_to c' (new_events w w') = [payload]
        /\ sent_to c (new_events w w') = [])
  /\ listener [Chunk payload] peer
     = (peer, [u ++ lit ": " ++ username st ++ lit ":" ++ strip text]).
Proof.
  intros Hc Hs Hne Hex Hcol He Hp Hl Hnd Hin Hcc Hbr Hpeer.
  set (m := username st ++ lit ":" ++ strip text) in *.
  assert (Hm : exists a t, m = a :: t).
  { destruct m as [|a t] eqn:Em; eauto.
    apply (f_equal (@List.length Z)) in Em. subst m.
    rewrite !length_app in Em; cbn in Em; lia. }
  destruct Hm as (a & t & Em).
  split; [|split].
  - cbn [interact]. rewrite Hc; cbn [negb]. cbv zeta.
    destruct (strip text) as [|b r] eqn:Et; [congruence|]. cbn [is_empty].
    rewrite Hex.
    assert (E : send_message (outgoing (username st) (b :: r)) true st
                = (true, put data st)).
    { unfold send_message, outgoing.
      rewrite Hc, Hs, Hcol; cbn [negb orb]. fold m. now rewrite He. }
    rewrite E; cbn [snd interact put is_connected]. rewrite Hc. reflexivity.
  - rewrite run_listen_spec by assumption. cbn [stop relayed].
    rewrite (decode_encode _ _ He), Em. cbn [stop].
    eexists; split; [reflexivity|]. rewrite new_events_add.
    unfold relay_events, broadcast_events, fan_events; cbn [flat_map].
    rewrite app_nil_r. cbn [sent_to]. rewrite <- Em. split.
    + apply sent_to_fan_once; auto.
      cbn; unfold sock_eqb; now apply Nat.eqb_neq.
    + apply sent_to_fan_excluded.
  - cbn [listener]. rewrite Hpeer; cbn [negb].
    rewrite (decode_encode _ _ Hp).
    destruct (u ++ lit ": " ++ m) as [|x y] eqn:Eu.
    { apply (f_equal (@List.length Z)) in Eu.
      rewrite !length_app in Eu; cbn in Eu; lia. }
    reflexivity.
Qed.

(** alice types " hello "; bob's handler is not involved, carol's client
    prints "alice: alice:hello". *)
Lemma typed_line_reaches_peer_witness :
  strip (lit " hello ") <> []
  /\ NoDup (Dict.keys (clients bob_is_broken))
  /\ In 3%nat (Dict.keys (clients bob_is_broken))
  /\ 3%nat <> 1%nat
  /\ wire (state_of (interact ascii_lower [Line (lit " hello ") true]
                       (mkState (lit "alice") true true [])))
     = [lit "alice:hello"]
  /\ (exists w',
        run_from (AwaitData (lit "alice")) 1%nat [Chunk (lit "alice:hello")]
          bob_is_broken
        = Suspended (OnRecv (AwaitData (lit "alice"))) w'
        /\ sent_to 3%nat (new_events bob_is_broken w')
           = [lit "alice: alice:hello"]
        /\ sent_to 1%nat (new_events bob_is_broken w') = [])
  /\ listener [Chunk (lit "alice: alice:hello")]
       (mkState (lit "carol") true true [lit "carol"])
     = (mkState (lit "carol") true true [lit "carol"],
        [lit "alice: alice:hello"]).
Proof.
  assert (H1 : strip (lit " hello ") <> []) by (vm_compute; discriminate).
  assert (H2 : NoDup (Dict.keys (clients bob_is_broken))).
  { cbn; repeat constructor; cbn; intuition discriminate. }
  assert (H3 : In 3%nat (Dict.keys (clients bob_is_broken)))
    by (cbn; auto).
  assert (H4 : 3%nat <> 1%nat) by discriminate.
  split; [exact H1|]. split; [exact H2|]. split; [exact H3|].
  split; [exact H4|].
  exact (typed_line_reaches_peer ascii_lower (lit " hello ") (lit "alice")
           (mkState (lit "alice") true true [])
           (mkState (lit "carol") true true [lit "carol"])
           (lit "alice:hello") (lit "alice: alice:hello") 1%nat 3%nat
           bob_is_broken
           eq_refl eq_refl H1 eq_refl eq_refl eq_refl eq_refl eq_refl
           H2 H3 H4 eq_refl eq_refl).
Defined.

(** * After the first disconnect *)

Lemma closed_app a b : closed (a ++ b) = closed a ++ closed b.
Proof.
  induction a as [|e a IH]; cbn; auto.
  destruct e; cbn; now rewrite ?IH.
Qed.

Lemma closed_fan_events m x w : closed (fan_events m x w) = [].
Proof.
  unfold fan_events.
  induction (Dict.keys (clients w)) as [|k l IH]; cbn [flat_map]; auto.
  rewrite closed_app, IH, app_nil_r. unfold attempt.
  destruct (is_excluded k x); auto. destruct (encode m); auto.
  now destruct (existsb _ (broken w)).
Qed.

Lemma closed_relay_events c u bodies w :
  closed (relay_events c u bodies w) = [].
Proof.
  unfold relay_events, broadcast_events.
  induction bodies as [|b l IH]; cbn [flat_map]; auto.
  rewrite closed_app, IH, app_nil_r. cbn [closed]. apply closed_fan_events.
Qed.

(** The run in which the receive loop of a handler stops (end of stream,
    connection error or bytes that do not decode, after any number of relayed
    chunks), started in a state in which the lock is free and the socket is
    registered, does not return: the handler removes the entry of its socket
    and no other, and then waits for the lock that it holds itself.  No
    socket has been closed, and the last thing recorded is the entry into
    [broadcast] with the LEAVE notice of the name that the registry had for
    the socket. *)
Theorem registered_session_end_blocks
    (c : sock) (u n : str) (input : list Recv) (w : World) :
  lock w = false ->
  Dict.get c (clients w) = Some n ->
  stop input <> Starved ->
  exists w' evs,
    run_from (AwaitData u) c input w = Suspended OnLock w'
    /\ lock w' = true
    /\ clients w' = Dict.remove c (clients w)
    /\ Dict.mem c (clients w') = false
    /\ new_events w w' = evs ++ [Called (leave_msg n) None]
    /\ closed (new_events w w') = [].
Proof.
  intros Hl Hg Hs. rewrite run_listen_spec by assumption.
  set (evs := relay_events c u (relayed input) w).
  assert (E : match stop input with
              | Starved => Suspended (OnRecv (AwaitData u)) (add_events evs w)
              | _ => cleanup c (add_events evs w)
              end = cleanup c (add_events evs w))
    by (destruct (stop input); congruence).
  rewrite E, cleanup_spec by exact Hl.
  cbn [clients add_events]; rewrite Hg.
  assert (Hnew : new_events w
                   (add_events [Called (leave_msg n) None]
                      (set_lock true
                         (set_clients (Dict.remove c (clients w))
                            (add_events evs w))))
                 = evs ++ [Called (leave_msg n) None]).
  { apply new_events_app. cbn. now rewrite <- app_assoc. }
  eexists; exists evs. split; [reflexivity|]. rewrite Hnew.
  split; [reflexivity|]. split; [reflexivity|].
  split; [cbn; apply mem_remove_same|]. split; [reflexivity|].
  rewrite closed_app. unfold evs; now rewrite closed_relay_events.
Qed.

(** alice's handler relays "hi" and then meets a connection error. *)
Lemma registered_session_end_blocks_witness :
  lock two_clients = false
  /\ Dict.get 1%nat (clients two_clients) = Some (lit "alice")
  /\ stop [Chunk (lit "hi"); ConnError] <> Starved
  /\ exists w' evs,
       run_from (AwaitData (lit "alice")) 1%nat
         [Chunk (lit "hi"); ConnError] two_clients
       = Suspended OnLock w'
       /\ lock w' = true
       /\ clients w' = [(2%nat, lit "bob")]
       /\ Dict.mem 1%nat (clients w') = false
       /\ new_events two_clients w'
          = evs ++ [Called (lit "alice left the chat") None]
       /\ closed (new_events two_clients w') = [].
Proof.
  assert (H : stop [Chunk (lit "hi"); ConnError] <> Starved)
    by (vm_compute; discriminate).
  do 2 (split; [reflexivity|]). split; [exact H|].
  exact (registered_session_end_blocks 1%nat (lit "alice") (lit "alice")
           [Chunk (lit "hi"); ConnError] two_clients eq_refl eq_refl H).
Defined.

Lemma stuck_run p c input w :
  lock w = true ->
  exists evs,
    lock (world_of (run_from p c input w)) = true
    /\ clients (world_of (run_from p c input w)) = clients w
    /\ trace (world_of (run_from p c input w)) = trace w ++ evs
    /\ Forall idle_event evs.
Proof.
  intros Hl.
  pose (still := fun w0 w' : World =>
    lock w' = true /\ clients w' = clients w0
    /\ exists evs, trace w' = trace w0 ++ evs /\ Forall idle_event evs).
  assert (Hsame : forall w0, lock w0 = true -> still w0 w0).
  { intros w0 H0; repeat split; auto. exists []; now rewrite app_nil_r. }
  assert (Hcall : forall w0 m x,
             lock w0 = true -> still w0 (add_events [Called m x] w0)).
  { intros w0 m x H0; repeat split; auto. exists [Called m x]; split; auto.
    repeat constructor. }
  assert (Hlisten : forall u w0, lock w0 = true ->
    still w0 (world_of (try_finally
                          (try_except (listen c u input) (fun _ => ret tt))
                          (cleanup c) w0))).
  { intros u w0 H0; unfold try_finally, try_except.
    destruct input as [|[d|] rest]; cbn [listen].
    - apply Hsame, H0.
    - unfold bind, recv, ret, decode_utf8.
      destruct (decode d) as [[|a s]|]; cbn [is_empty raise ret];
        rewrite ?cleanup_locked by assumption; try (apply Hsame, H0).
      rewrite broadcast_locked by assumption. apply Hcall, H0.
    - unfold bind, recv, raise, ret. rewrite cleanup_locked by assumption.
      apply Hsame, H0. }
  assert (Henter : forall w0, lock w0 = true ->
    still w0 (world_of (try_finally
                          (try_except (enter c input) (fun _ => ret tt))
                          (cleanup c) w0))).
  { intros w0 H0; unfold try_finally, try_except.
    destruct input as [|[d|] rest]; cbn [enter].
    - apply Hsame, H0.
    - unfold handshake, bind, recv, ret, decode_utf8.
      destruct (decode d) as [s|]; cbn [raise ret].
      + unfold register, with_lock, bind, acquire; rewrite H0.
        apply Hsame, H0.
      + rewrite cleanup_locked by assumption. apply Hsame, H0.
    - unfold handshake, bind, recv, raise, ret.
      rewrite cleanup_locked by assumption. apply Hsame, H0. }
  assert (Hdone : forall w', still w w' ->
    exists evs, lock w' = true /\ clients w' = clients w
                /\ trace w' = trace w ++ evs /\ Forall idle_event evs).
  { intros w' (L & C & evs & E & F); eauto. }
  destruct p as [| |u]; unfold run_from; cbn [body].
  - destruct welcome_encodes as [wb He].
    destruct (is_broken c w) eqn:Hb.
    + unfold try_finally, try_except, bind.
      rewrite (greet_spec _ _ _ He), Hb, Hl. cbn [ret].
      rewrite cleanup_locked by assumption.
      exists [SendFailed c true].
      split; [exact Hl|]. split; [reflexivity|]. split; [reflexivity|].
      repeat constructor.
    + destruct (Henter (add_events [Sent c wb true] w) Hl)
        as (L & C & evs & E & F).
      assert (Eq : try_finally
                     (try_except (greet c ;; enter c input) (fun _ => ret tt))
                     (cleanup c) w
                   = try_finally
                       (try_except (enter c input) (fun _ => ret tt))
                       (cleanup c) (add_events [Sent c wb true] w)).
      { unfold try_finally, try_except, bind.
        now rewrite (greet_spec _ _ _ He), Hb, Hl. }
      rewrite Eq. exists (Sent c wb true :: evs).
      split; [exact L|]. split; [exact C|]. split.
      * rewrite E; cbn. now rewrite <- app_assoc.
      * constructor; [exact He|exact F].
  - apply Hdone, Henter, Hl.
  - apply Hdone, Hlisten, Hl.
Qed.

(** The first disconnect is the end of the chat.  From a state in which the
    lock is taken for good, whatever the handler threads do afterwards, in
    any number of runs, the lock stays taken and the registry stays as it is;
    nothing is relayed any more (the only payloads written are greetings),
    no socket is closed, and [shutdown] itself waits for the lock. *)
Theorem deadlock_is_permanent
    (runs : list (Point * sock * list Recv)) (server_socket : option sock)
    (w : World) :
  lock w = true ->
  lock (run_all runs w) = true
  /\ clients (run_all runs w) = clients w
  /\ Forall idle_event (new_events w (run_all runs w))
  /\ shutdown server_socket (run_all runs w) = Suspended OnLock (run_all runs w).
Proof.
  intros Hl.
  assert (H : exists evs,
    lock (run_all runs w) = true /\ clients (run_all runs w) = clients w
    /\ trace (run_all runs w) = trace w ++ evs /\ Forall idle_event evs).
  { revert w Hl; induction runs as [|[[p c] input] rest IH]; intros w Hl.
    - exists []; cbn; rewrite app_nil_r; auto.
    - cbn [run_all fold_left fst snd].
      destruct (stuck_run p c input w Hl) as (e1 & L1 & C1 & T1 & F1).
      destruct (IH _ L1) as (e2 & L2 & C2 & T2 & F2).
      exists (e1 ++ e2). unfold run_all in *. rewrite L2, C2, C1, T2, T1.
      repeat split; auto.
      + now rewrite app_assoc.
      + apply Forall_app; auto. }
  destruct H as (evs & L & C & T & F). repeat split; auto.
  - now rewrite (new_events_app _ _ _ T).
  - now apply shutdown_locked.
Qed.

Lemma deadlock_is_permanent_witness :
  lock alice_gone = true
  /\ lock (run_all [(AwaitData (lit "bob"), 2%nat, [Chunk (lit "hi")]);
                    (Accepted, 3%nat, [Chunk (lit "carol")])] alice_gone)
     = true
  /\ clients (run_all [(AwaitData (lit "bob"), 2%nat, [Chunk (lit "hi")]);
                       (Accepted, 3%nat, [Chunk (lit "carol")])] alice_gone)
     = clients alice_gone.
Proof.
  pose proof (deadlock_is_permanent
                [(AwaitData (lit "bob"), 2%nat, [Chunk (lit "hi")]);
                 (Accepted, 3%nat, [Chunk (lit "carol")])]
                None alice_gone eq_refl) as T.
  split; [reflexivity|]. split; [exact (proj1 T)|exact (proj1 (proj2 T))].
Defined.

(** * Coalesced reads and the first message *)

Lemma encode_app a b :
  encode (a ++ b)
  = match encode a, encode b with
    | Some x, Some y => Some (x ++ y)
    | _, _ => None
    end.
Proof.
  induction a as [|c a IH]; cbn [app encode].
  - now destruct (encode b).
  - rewrite IH. destruct (encode_cp c) as [e|]; auto.
    destruct (encode a) as [x|]; auto.
    destruct (encode b) as [y|]; auto. now rewrite app_assoc.
Qed.

Lemma decode_app d1 d2 s1 s2 :
  decode d1 = Some s1 -> decode d2 = Some s2 ->
  decode (d1 ++ d2) = Some (s1 ++ s2).
Proof.
  intros H1 H2; apply decode_encode.
  now rewrite encode_app, (encode_decode _ _ H1), (encode_decode _ _ H2).
Qed.

Lemma listener_spec incoming st :
  is_connected st = true ->
  listener incoming st
  = (match stop incoming with
     | Starved => st
     | _ => set_connected false st
     end, relayed incoming).
Proof.
  intros Hc; induction incoming as [|r rest IH]; cbn [listener stop relayed];
    rewrite Hc; cbn [negb]; auto.
  destruct r as [d|]; auto.
  destruct (decode d) as [[|a s]|]; auto.
  now rewrite IH.
Qed.

(** Nothing separates one message from the next on the wire.  When two
    payloads are read in one [recv], both the server and the listener of the
    line-mode client take them for a single message, the two texts run
    together: the server relays one message, the client prints one. *)
Theorem coalesced_payloads_are_one_message
    (d1 d2 : bytes) (s1 s2 : str) (c : sock) (u : str) (w : World)
    (st : State) :
  decode d1 = Some s1 -> decode d2 = Some s2 -> s1 <> [] ->
  lock w = false -> is_connected st = true ->
  calls (new_events w (world_of (listen c u [Chunk (d1 ++ d2)] w)))
  = [(data_msg u (s1 ++ s2), Some c)]
  /\ snd (listener [Chunk (d1 ++ d2)] st) = [s1 ++ s2].
Proof.
  intros H1 H2 Hne Hl Hc.
  pose proof (decode_app _ _ _ _ H1 H2) as Hd.
  destruct s1 as [|a s1]; [congruence|]. cbn [app] in Hd. split.
  - rewrite listen_spec by assumption. cbn [stop relayed]; rewrite Hd.
    cbn [stop finish world_of]. rewrite new_events_add.
    apply calls_relay_events.
  - rewrite listener_spec by assumption. cbn [snd relayed]. now rewrite Hd.
Qed.

Lemma coalesced_payloads_are_one_message_witness :
  decode (lit "hi") = Some (lit "hi")
  /\ decode (lit "there") = Some (lit "there")
  /\ lit "hi" <> []
  /\ calls (new_events two_clients
              (world_of (listen 1%nat (lit "alice")
                           [Chunk (lit "hi" ++ lit "there")] two_clients)))
     = [(lit "alice: hithere", Some 1%nat)]
  /\ snd (listener [Chunk (lit "hi" ++ lit "there")]
            (mkState (lit "bob") true true []))
     = [lit "hithere"].
Proof.
  assert (H : lit "hi" <> []) by discriminate.
  do 2 (split; [reflexivity|]). split; [exact H|].
  exact (coalesced_payloads_are_one_message (lit "hi") (lit "there")
           (lit "hi") (lit "there") 1%nat (lit "alice") two_clients
           (mkState (lit "bob") true true [])
           eq_refl eq_refl H eq_refl eq_refl).
Defined.

(** When [connect] succeeds the client is connected and has sent exactly one
    payload, the encoding of its user name; and if that payload is not empty
    and reaches the server as the first chunk of the connection, the name the
    server registers is the user name with surrounding white space removed
    (for a name that was typed in, the user name itself). *)
Theorem server_registers_the_clients_name
    (reachable : bool) (welcome : Recv) (typed : option str) (link_up : bool)
    (st st' : State) (c : sock) (w : World) :
  connect reachable welcome typed link_up st = (true, st') ->
  lock w = false ->
  exists data,
    is_connected st' = true
    /\ wire st' = wire st ++ [data]
    /\ encode (username st') = Some data
    /\ (data <> [] ->
        Dict.get c (clients (world_of (handshake c (Chunk data) w)))
        = Some (strip (username st')))
    /\ (username st = [] -> strip (username st') = username st').
Proof.
  unfold connect. destruct reachable; cbn [negb]; [|discriminate].
  destruct welcome as [raw|]; [|discriminate].
  destruct (decode raw); [|discriminate].
  set (st1 := set_socket st).
  assert (Hfin : forall st2,
    wire st2 = wire st ->
    (username st = [] -> strip (username st2) = username st2) ->
    match encode (username st2) with
    | Some data =>
        if link_up then (true, set_connected true (put data st2))
        else (false, st2)
    | None => (false, st2)
    end = (true, st') ->
    lock w = false ->
    exists data,
      is_connected st' = true /\ wire st' = wire st ++ [data]
      /\ encode (username st') = Some data
      /\ (data <> [] ->
          Dict.get c (clients (world_of (handshake c (Chunk data) w)))
          = Some (strip (username st')))
      /\ (username st = [] -> strip (username st') = username st')).
  { intros st2 Hw Hs. destruct (encode (username st2)) as [data|] eqn:He;
      [|discriminate].
    destruct link_up; [|discriminate]. intros [= <-] Hl.
    exists data. cbn [is_connected wire username set_connected put].
    rewrite Hw. repeat split; auto. intros _.
    rewrite (handshake_spec _ _ (username st2)) by
      (auto using decode_encode).
    cbn [world_of clients add_events set_clients]. apply get_set_same. }
  change (username st1) with (username st).
  destruct (is_empty (username st)) eqn:Hu.
  - destruct typed as [t|]; cbn [option_map]; [|discriminate].
    apply Hfin; [reflexivity|]. intros _; apply strip_fixed.
  - apply Hfin; [reflexivity|].
    intros E; rewrite E in Hu; discriminate.
Qed.

Lemma server_registers_the_clients_name_witness :
  connect true (Chunk (lit "Welcome! Enter your username")) (Some (lit " bob "))
    true (mkState [] false false [])
  = (true, mkState (lit "bob") true true [lit "bob"])
  /\ lock two_clients = false
  /\ exists data,
       wire (mkState (lit "bob") true true [lit "bob"]) = [] ++ [data]
       /\ Dict.get 3%nat
            (clients (world_of (handshake 3%nat (Chunk data) two_clients)))
          = Some (strip (lit "bob")).
Proof.
  assert (H : connect true (Chunk (lit "Welcome! Enter your username"))
                (Some (lit " bob ")) true (mkState [] false false [])
              = (true, mkState (lit "bob") true true [lit "bob"]))
    by reflexivity.
  split; [exact H|]. split; [reflexivity|].
  destruct (server_registers_the_clients_name _ _ _ _ _ _ 3%nat two_clients
              H eq_refl) as (data & _ & Hw & _ & Hg & _).
  exists data; split; [exact Hw|]. apply Hg.
  cbn in Hw; injection Hw as <-; discriminate.
Defined.
